(** * ikpy: inverse kinematics by bound-constrained optimisation

    A shallow embedding of [src/ikpy/inverse_kinematics.py] and the
    properties of its objective construction and solver driving.

    Floating-point numbers are idealised as the real numbers of the
    Standard Library; numpy arrays of rank one are lists, arrays of rank two
    are lists of rows.  Arrays that the program shares by reference
    ([starting_nodes_angles], the arrays built by [chain.active_to_full])
    live in a heap, so that the starting configuration being left alone is
    a statement about the program and not about the notation. *)

From Stdlib Require Import Reals Lra String ZArith Lia Bool Arith List.
Import ListNotations.

Local Open Scope R_scope.

(** ** numpy: the array operations the module uses *)

Module Numpy.

(** The exceptions that reach the caller of the solver. *)
Inductive Exn : Type :=
| ValueError (msg : string)
| OptimizationFailure (msg : string).

Definition broadcast_error : Exn :=
  ValueError "operands could not be broadcast together".

(** [a - b] on arrays of rank one: elementwise on equal shapes, an array
    of one element is stretched over the other operand, any other pair of
    shapes raises [ValueError]. *)
Definition np_sub (a b : list R) : Exn + list R :=
  if Nat.eqb (length a) (length b) then
    inr (map (fun p => fst p - snd p) (combine a b))
  else
    match a, b with
    | [a0], _ => inr (map (fun bi => a0 - bi) b)
    | _, [b0] => inr (map (fun ai => ai - b0) a)
    | _, _ => inl broadcast_error
    end.

(** Rows of a rank-two operand, paired by the same stretching rule. *)
Fixpoint sub_rows (a b : list (list R)) : Exn + list (list R) :=
  match a, b with
  | [], [] => inr []
  | ra :: a', rb :: b' =>
      match np_sub ra rb, sub_rows a' b' with
      | inr r, inr rest => inr (r :: rest)
      | inl e, _ => inl e
      | _, inl e => inl e
      end
  | _, _ => inl broadcast_error
  end.

(** [a - b] on arrays of rank two. *)
Definition np_sub2 (a b : list (list R)) : Exn + list (list R) :=
  if Nat.eqb (length a) (length b) then sub_rows a b
  else
    match a, b with
    | [ra], _ => sub_rows (map (fun _ => ra) b) b
    | _, [rb] => sub_rows a (map (fun _ => rb) a)
    | _, _ => inl broadcast_error
    end.

Definition sum_sq (v : list R) : R :=
  fold_right (fun x acc => x * x + acc) 0 v.

(** [np.linalg.norm] with its default order: the 2-norm of a vector. *)
Definition norm (v : list R) : R := sqrt (sum_sq v).

(** [np.linalg.norm] with its default order on a matrix: Frobenius. *)
Definition norm_fro (m : list (list R)) : R := sqrt (sum_sq (concat m)).

(** An array of rank one or two, as the orientation slices are. *)
Inductive NdArray : Type :=
| Arr1 (v : list R)
| Arr2 (rows : list (list R)).

Definition nd_sub (a b : NdArray) : Exn + NdArray :=
  match a, b with
  | Arr1 u, Arr1 v =>
      match np_sub u v with inr r => inr (Arr1 r) | inl e => inl e end
  | Arr2 m, Arr2 n =>
      match np_sub2 m n with inr r => inr (Arr2 r) | inl e => inl e end
  | Arr1 u, Arr2 n =>
      match np_sub2 [u] n with inr r => inr (Arr2 r) | inl e => inl e end
  | Arr2 m, Arr1 v =>
      match np_sub2 m [v] with inr r => inr (Arr2 r) | inl e => inl e end
  end.

Definition nd_norm (a : NdArray) : R :=
  match a with
  | Arr1 v => norm v
  | Arr2 m => norm_fro m
  end.

End Numpy.
Import Numpy.

(** ** Poses: 4x4 homogeneous transforms *)

Module Pose.

Record Row4 : Type := mkRow { e0 : R; e1 : R; e2 : R; e3 : R }.
Record Mat4 : Type := mkMat { row0 : Row4; row1 : Row4; row2 : Row4; row3 : Row4 }.

(** Entry [j] of a row; the last column is [3], written [-1] in the
    source. *)
Definition entry (j : nat) (r : Row4) : R :=
  match j with
  | O => e0 r
  | 1%nat => e1 r
  | 2%nat => e2 r
  | _ => e3 r
  end.

(** [m[:3, j]] *)
Definition slice_col (m : Mat4) (j : nat) : list R :=
  [entry j (row0 m); entry j (row1 m); entry j (row2 m)].

(** [m[:3, :3]] *)
Definition slice_rot (m : Mat4) : list (list R) :=
  map (fun r => [e0 r; e1 r; e2 r]) [row0 m; row1 m; row2 m].

End Pose.
Import Pose.

(** ** Effects: a heap of shared arrays, a log of collaborator calls,
       exceptions *)

Module Effects.

Definition ref : Type := nat.

(** One bound pair of a link; [None] is the open side of an interval. *)
Definition Bounds : Type := (option R * option R)%type.

(** What is observable from outside: each call of the forward-kinematics
    collaborator with the joint vector it receives, the call of the
    optimizer with its initial guess, bounds and iteration cap, each
    evaluation of the objective that the optimizer asks for, and the
    diagnostic that carries the iteration count. *)
Inductive Event : Type :=
| EvForwardKinematics (joints : list R)
| EvMinimize (x0 : list R) (bounds : list Bounds) (maxiter : option Z)
| EvObjective (x : list R)
| EvLogInfo (nit : Z).

Record World : Type := mkWorld { heap : list (list R); events : list Event }.

Definition M (A : Type) : Type := World -> (Exn + A) * World.

Definition ret {A} (a : A) : M A := fun w => (inr a, w).

Definition bind {A B} (m : M A) (f : A -> M B) : M B :=
  fun w =>
    match m w with
    | (inr a, w') => f a w'
    | (inl e, w') => (inl e, w')
    end.

Definition raise {A} (e : Exn) : M A := fun w => (inl e, w).

Definition lift {A} (r : Exn + A) : M A := fun w => (r, w).

Definition emit (e : Event) : M unit :=
  fun w => (inr tt, mkWorld (heap w) (events w ++ [e])).

(** The contents of an array. *)
Definition read (r : ref) : M (list R) :=
  fun w => (inr (nth r (heap w) []), w).

(** A new array with the given contents. *)
Definition alloc (v : list R) : M ref :=
  fun w => (inr (length (heap w)), mkWorld (heap w ++ [v]) (events w)).

Fixpoint set_nth {A} (n : nat) (v : A) (l : list A) : list A :=
  match l, n with
  | [], _ => []
  | _ :: l', O => v :: l'
  | a :: l', S n' => a :: set_nth n' v l'
  end.

(** Overwrite an array in place. *)
Definition write (r : ref) (v : list R) : M unit :=
  fun w => (inr tt, mkWorld (set_nth r v (heap w)) (events w)).

End Effects.
Import Effects.

Declare Scope ik_scope.
Delimit Scope ik_scope with ik.
Notation "x <- m ;; k" := (bind m (fun x => k))
  (at level 61, m at next level, right associativity) : ik_scope.
Notation "m ;;; k" := (bind m (fun _ => k))
  (at level 61, right associativity) : ik_scope.
Local Open Scope ik_scope.

(** ** The kinematic chain *)

Module ChainModel.

(** Modelled from the spec: the link class is not part of the reviewed
    source.  A link carries an angle bound pair and a flag that says
    whether it is active. *)
Record Link : Type := mkLink { bounds : Bounds; is_active : bool }.

(** Modelled from the spec: the chain class is not part of the reviewed
    source.  A chain is an ordered sequence of links plus the index of the
    first active link, and owns the forward kinematics, a function of the
    joint vector alone. *)
Record Chain : Type := mkChain {
  links : list Link;
  first_active_joint : nat;
  fk : list R -> Mat4
}.

Definition active_links_mask (c : Chain) : list bool :=
  map is_active (links c).

(** Keep the entries whose flag is set, in order. *)
Fixpoint compress {A} (mask : list bool) (l : list A) : list A :=
  match mask, l with
  | true :: mask', a :: l' => a :: compress mask' l'
  | false :: mask', _ :: l' => compress mask' l'
  | _, _ => []
  end.

(** Replace the entries whose flag is set by the given values, in order;
    entries for which no value is left are kept. *)
Fixpoint place_values {A} (mask : list bool) (vals full : list A) : list A :=
  match full, mask with
  | f :: full', true :: mask' =>
      match vals with
      | v :: vals' => v :: place_values mask' vals' full'
      | [] => f :: place_values mask' [] full'
      end
  | f :: full', false :: mask' => f :: place_values mask' vals full'
  | _, _ => full
  end.

(** Modelled from the spec: [chain.active_from_full] lives in the chain
    module, which is not part of the reviewed source.  The spec's [reduce]
    drops all non-active entries and preserves the order of the others; it
    is applied to joint vectors and to the list of bound pairs alike. *)
Definition active_from_full {A} (c : Chain) (full : list A) : list A :=
  compress (active_links_mask c) full.

(** The value that the merge of an active vector into a full vector has. *)
Definition merge_values (c : Chain) (active full : list R) : list R :=
  place_values (active_links_mask c) active full.

(** Modelled from the spec: [chain.active_to_full] lives in the chain
    module, which is not part of the reviewed source.  The spec's [merge]
    produces a full vector identical to the given one except that
    active-link positions are replaced, in order, by the active values, and
    does not mutate its input: a copy is allocated and the copy is
    overwritten. *)
Definition active_to_full (c : Chain) (active : list R) (initial : ref) : M ref :=
  full <- read initial ;;
  copy <- alloc full ;;
  write copy (merge_values c active full) ;;;
  ret copy.

(** [chain.forward_kinematics(y)]: the collaborator reads the array and
    returns the pose; the call is logged. *)
Definition forward_kinematics (c : Chain) (y : ref) : M Mat4 :=
  joints <- read y ;;
  emit (EvForwardKinematics joints) ;;;
  ret (fk c joints).

End ChainModel.
Import ChainModel.

(** ** The external optimizer *)

Module Optimizer.

(** [res.x] and [res.nit] of the optimizer's result. *)
Record OptimizeResult : Type := mkResult { res_x : list R; res_nit : Z }.

(** The optimizer is a black box that can do three things: ask for the
    objective's value at a point and go on from the answer, return a
    result, or fail.  Every run is finite. *)
Inductive Strategy : Type :=
| Query (x : list R) (k : R -> Strategy)
| Done (res : OptimizeResult)
| Fail (msg : string).

(** [scipy.optimize.minimize(objective, x0, method='L-BFGS-B',
    bounds=..., options=...)] as the strategy it follows for the given
    initial guess, bounds and iteration cap. *)
Definition Minimizer : Type := list R -> list Bounds -> option Z -> Strategy.

(** Running a strategy against the objective: an exception of the objective
    propagates through the optimizer unchanged. *)
Fixpoint run_strategy (objective : list R -> M R) (s : Strategy) : M OptimizeResult :=
  match s with
  | Query x k =>
      emit (EvObjective x) ;;;
      v <- objective x ;;
      run_strategy objective (k v)
  | Done res => ret res
  | Fail msg => raise (OptimizationFailure msg)
  end.

End Optimizer.
Import Optimizer.

(** ** inverse_kinematics.py *)

Module InverseKinematics.

Definition ORIENTATION_COEFF : R := 1.

(** Lines 38-44.  The closure reads [starting_nodes_angles] when it is
    called, which happens only after the check of line 87; here it is an
    argument. *)
Definition optimize_target_function (c : Chain) (target : list R)
    (starting_nodes_angles : ref) (x : list R) : M (ref * R) :=
  y <- active_to_full c x starting_nodes_angles ;;
  pose <- forward_kinematics c y ;;
  diff <- lift (np_sub (slice_col pose 3) target) ;;
  let squared_distance_to_target := norm diff in
  ret (y, squared_distance_to_target).

Definition unknown_mode (orientation_mode : string) : Exn :=
  ValueError ("Unknown orientation mode: " ++ orientation_mode).

(** Lines 52-76: the target slice [orientation] and the closure
    [get_orientation] that the mode selects. *)
Definition select_orientation (c : Chain) (target_frame : Mat4)
    (orientation_mode : string) : Exn + (NdArray * (ref -> M NdArray)) :=
  if String.eqb orientation_mode "X" then
    inr (Arr1 (slice_col target_frame 0),
         fun y => pose <- forward_kinematics c y ;; ret (Arr1 (slice_col pose 0)))
  else if String.eqb orientation_mode "Y" then
    inr (Arr1 (slice_col target_frame 1),
         fun y => pose <- forward_kinematics c y ;; ret (Arr1 (slice_col pose 1)))
  else if String.eqb orientation_mode "Z" then
    inr (Arr1 (slice_col target_frame 2),
         fun y => pose <- forward_kinematics c y ;; ret (Arr1 (slice_col pose 2)))
  else if String.eqb orientation_mode "all" then
    inr (Arr2 (slice_rot target_frame),
         fun y => pose <- forward_kinematics c y ;; ret (Arr2 (slice_rot pose)))
  else
    inl (unknown_mode orientation_mode).

(** Lines 46-85: [optimize_function], or the exception of line 76. *)
Definition make_optimize_function (c : Chain) (target_frame : Mat4)
    (target : list R) (orientation_mode : option string)
  : Exn + (ref -> list R -> M R) :=
  match orientation_mode with
  | None =>
      inr (fun starting_nodes_angles x =>
             r <- optimize_target_function c target starting_nodes_angles x ;;
             ret (snd r))
  | Some mode =>
      match select_orientation c target_frame mode with
      | inl e => inl e
      | inr (orientation, get_orientation) =>
          inr (fun starting_nodes_angles x =>
                 r <- optimize_target_function c target starting_nodes_angles x ;;
                 o <- get_orientation (fst r) ;;
                 diff <- lift (nd_sub o orientation) ;;
                 let squared_distance_to_orientation := nd_norm diff in
                 ret (snd r + ORIENTATION_COEFF * squared_distance_to_orientation))
      end
  end.

(** Lines 91-96. *)
Definition optimize_total (c : Chain) (optimize_function : ref -> list R -> M R)
    (starting_nodes_angles : ref) (regularization_parameter : option R)
  : list R -> M R :=
  match regularization_parameter with
  | Some lam =>
      fun x =>
        s <- read starting_nodes_angles ;;
        diff <- lift (np_sub x (skipn (first_active_joint c) s)) ;;
        let regularization := norm diff in
        v <- optimize_function starting_nodes_angles x ;;
        ret (v + lam * regularization)
  | None => optimize_function starting_nodes_angles
  end.

(** Lines 99-101. *)
Definition real_bounds (c : Chain) : list Bounds :=
  active_from_full c (map bounds (links c)).

Definition missing_start : Exn :=
  ValueError "starting_nodes_angles must be specified".

(** Lines 10-113.  The mode is examined first (lines 46-85), then the
    starting configuration (line 87); the optimizer is called with the final
    objective, the reduced starting configuration, the reduced bounds and
    the iteration cap (line 109); the diagnostic of line 111 is logged with
    the iteration count; the result is merged into a new full vector
    (line 113). *)
Definition inverse_kinematic_optimization (minimize : Minimizer) (c : Chain)
    (target_frame : Mat4) (starting_nodes_angles : option ref)
    (regularization_parameter : option R) (max_iter : option Z)
    (orientation_mode : option string) : M ref :=
  let target := slice_col target_frame 3 in
  optimize_function <- lift (make_optimize_function c target_frame target orientation_mode) ;;
  starting <- match starting_nodes_angles with
              | None => raise missing_start
              | Some s => ret s
              end ;;
  let total := optimize_total c optimize_function starting regularization_parameter in
  s <- read starting ;;
  let x0 := active_from_full c s in
  emit (EvMinimize x0 (real_bounds c) max_iter) ;;;
  res <- run_strategy total (minimize x0 (real_bounds c) max_iter) ;;
  emit (EvLogInfo (res_nit res)) ;;;
  active_to_full c (res_x res) starting.

End InverseKinematics.
Import InverseKinematics.

(** ** What the spec says, in its own words *)

Module Spec.

Inductive OrientationMode : Type := ModeNone | ModeX | ModeY | ModeZ | ModeAll.

(** The value of [orientation_mode] that selects each mode at the public
    interface (docstring, lines 27-32). *)
Definition mode_arg (m : OrientationMode) : option string :=
  match m with
  | ModeNone => None
  | ModeX => Some "X"%string
  | ModeY => Some "Y"%string
  | ModeZ => Some "Z"%string
  | ModeAll => Some "all"%string
  end.

Definition recognized (orientation_mode : option string) : bool :=
  match orientation_mode with
  | None => true
  | Some m =>
      String.eqb m "X" || String.eqb m "Y" || String.eqb m "Z" || String.eqb m "all"
  end.

Definition Vec3 : Type := (R * R * R)%type.

Definition translation (p : Mat4) : Vec3 :=
  (e3 (row0 p), e3 (row1 p), e3 (row2 p)).

Definition rotation_column (j : nat) (p : Mat4) : Vec3 :=
  (entry j (row0 p), entry j (row1 p), entry j (row2 p)).

(** Euclidean norm of the difference of two 3-vectors. *)
Definition euclid3 (u v : Vec3) : R :=
  let '(u0, u1, u2) := u in
  let '(v0, v1, v2) := v in
  sqrt ((u0 - v0)² + (u1 - v1)² + (u2 - v2)²).

(** Frobenius norm of the difference of the 3x3 rotation blocks. *)
Definition frobenius3 (p t : Mat4) : R :=
  sqrt ((e0 (row0 p) - e0 (row0 t))² + (e1 (row0 p) - e1 (row0 t))²
        + (e2 (row0 p) - e2 (row0 t))²
        + (e0 (row1 p) - e0 (row1 t))² + (e1 (row1 p) - e1 (row1 t))²
        + (e2 (row1 p) - e2 (row1 t))²
        + (e0 (row2 p) - e0 (row2 t))² + (e1 (row2 p) - e1 (row2 t))²
        + (e2 (row2 p) - e2 (row2 t))²).

Definition positionError (pose target : Mat4) : R :=
  euclid3 (translation pose) (translation target).

Definition orientationError (m : OrientationMode) (pose target : Mat4) : R :=
  match m with
  | ModeNone => 0
  | ModeX => euclid3 (rotation_column 0 pose) (rotation_column 0 target)
  | ModeY => euclid3 (rotation_column 1 pose) (rotation_column 1 target)
  | ModeZ => euclid3 (rotation_column 2 pose) (rotation_column 2 target)
  | ModeAll => frobenius3 pose target
  end.

Definition ORIENTATION_WEIGHT : R := 1.

(** Section 4.4, step 5. *)
Definition baseObjective (m : OrientationMode) (pose target : Mat4) : R :=
  (positionError pose target)² + ORIENTATION_WEIGHT * (orientationError m pose target)².

(** Euclidean distance of two vectors of the same length. *)
Definition distance (a b : list R) : R :=
  sqrt (fold_right Rplus 0 (map (fun p => (fst p - snd p)²) (combine a b))).

(** Section 4.4, step 6. *)
Definition regularizationTerm (c : Chain) (lam : R) (x startingFull : list R) : R :=
  lam * distance x (active_from_full c startingFull).

(** A value lies within a bound pair; an open side bounds nothing. *)
Definition within (v : R) (b : Bounds) : Prop :=
  match fst b with Some lo => lo <= v | None => True end /\
  match snd b with Some hi => v <= hi | None => True end.

End Spec.
Import Spec.

(** ** Observations on runs *)

Module Observe.

(** One evaluation of the objective that the mode selects, at the active
    vector [x]. *)
Definition eval_objective (c : Chain) (target_frame : Mat4)
    (orientation_mode : option string) (starting : ref) (x : list R) : M R :=
  f <- lift (make_optimize_function c target_frame (slice_col target_frame 3)
               orientation_mode) ;;
  f starting x.

(** One evaluation of the final objective, regularization included. *)
Definition eval_total (c : Chain) (target_frame : Mat4)
    (orientation_mode : option string) (starting : ref)
    (regularization_parameter : option R) (x : list R) : M R :=
  f <- lift (make_optimize_function c target_frame (slice_col target_frame 3)
               orientation_mode) ;;
  optimize_total c f starting regularization_parameter x.

Definition is_fk (e : Event) : bool :=
  match e with EvForwardKinematics _ => true | _ => false end.

Definition is_minimize (e : Event) : bool :=
  match e with EvMinimize _ _ _ => true | _ => false end.

Definition is_objective (e : Event) : bool :=
  match e with EvObjective _ => true | _ => false end.

(** Number of calls of the forward-kinematics collaborator in a log. *)
Definition fk_calls (log : list Event) : nat := length (filter is_fk log).

Definition minimize_calls (log : list Event) : nat := length (filter is_minimize log).

(** Number of evaluations of the objective in a log. *)
Definition objective_calls (log : list Event) : nat := length (filter is_objective log).

(** The number of forward-kinematics calls that one evaluation makes. *)
Definition fk_calls_per_evaluation (m : OrientationMode) : nat :=
  match m with ModeNone => 1 | _ => 2 end.

(** The code's base objective, as a function of the computed pose. *)
Definition code_objective (m : OrientationMode) (pose target : Mat4) : R :=
  match m with
  | ModeNone => positionError pose target
  | _ => positionError pose target + ORIENTATION_COEFF * orientationError m pose target
  end.

(** The full vector that an evaluation at [x] builds and hands to the
    forward kinematics. *)
Definition merged (c : Chain) (starting : ref) (x : list R) (w : World) : list R :=
  merge_values c x (nth starting (heap w) []).

(** The world only grows: arrays are added after the existing ones, which
    keep their contents, and events are added at the end of the log. *)
Definition extends (w w' : World) : Prop :=
  (exists hx, heap w' = heap w ++ hx) /\ (exists ex, events w' = events w ++ ex).

Definition monotone {A} (m : M A) : Prop := forall w, extends w (snd (m w)).

(** The objective raises nothing but numpy's shape error. *)
Definition shape_errors_only {A} (m : M A) : Prop :=
  forall w e, fst (m w) = inl e -> e = broadcast_error.

(** The world in which the optimizer starts: the call is logged with the
    initial guess, the bounds and the iteration cap it receives. *)
Definition at_call (c : Chain) (max_iter : option Z) (s : ref) (w : World) : World :=
  mkWorld (heap w)
          (events w ++ [EvMinimize (active_from_full c (nth s (heap w) []))
                                   (real_bounds c) max_iter]).

(** The chain's active links are exactly those from [first_active_joint]
    on. *)
Definition active_suffix (c : Chain) : Prop :=
  active_links_mask c =
    repeat false (first_active_joint c)
    ++ repeat true (length (links c) - first_active_joint c).

Definition is_log (e : Event) : bool :=
  match e with EvLogInfo _ => true | _ => false end.

(** Number of diagnostics in a log. *)
Definition log_calls (log : list Event) : nat := length (filter is_log log).

(** Two poses agree on the slices that a mode compares: the translation,
    and the rotation column or block that the mode selects. *)
Definition slices_agree (m : OrientationMode) (a b : Mat4) : Prop :=
  translation a = translation b
  /\ match m with
     | ModeNone => True
     | ModeX => rotation_column 0 a = rotation_column 0 b
     | ModeY => rotation_column 1 a = rotation_column 1 b
     | ModeZ => rotation_column 2 a = rotation_column 2 b
     | ModeAll =>
         rotation_column 0 a = rotation_column 0 b
         /\ rotation_column 1 a = rotation_column 1 b
         /\ rotation_column 2 a = rotation_column 2 b
     end.

End Observe.
Import Observe.

(** ** Concrete chains and optimizers *)

Module Examples.

Definition translate (x y z : R) : Mat4 :=
  mkMat (mkRow 1 0 0 x) (mkRow 0 1 0 y) (mkRow 0 0 1 z) (mkRow 0 0 0 1).

Definition free : Bounds := (None, None).

(** One prismatic joint along the x axis. *)
Definition slider : Chain :=
  mkChain [mkLink free true] 0 (fun y => translate (nth 0 y 0) 0 0).

(** Two active joints followed by a fixed tip link. *)
Definition arm : Chain :=
  mkChain [mkLink (Some (-1), Some 1) true; mkLink free true; mkLink free false] 0
          (fun y => translate (nth 0 y 0) (nth 1 y 0) 0).

(** One active joint followed by a fixed tip link. *)
Definition finger : Chain :=
  mkChain [mkLink free true; mkLink free false] 0
          (fun y => translate (nth 0 y 0) 0 0).

(** An optimizer that returns its initial guess at once. *)
Definition return_guess : Minimizer := fun x0 _ _ => Done (mkResult x0 0).

(** An optimizer that evaluates the objective at the initial guess, then
    returns it. *)
Definition one_look : Minimizer :=
  fun x0 _ _ => Query x0 (fun _ => Done (mkResult x0 1)).

Definition world_of (start : list R) : World := mkWorld [start] [].

(** A fixed base link followed by two active joints. *)
Definition rooted : Chain :=
  mkChain [mkLink free false; mkLink (Some (-1), Some 1) true; mkLink free true] 1
          (fun y => translate (nth 1 y 0) (nth 2 y 0) 0).

(** A quarter turn about the z axis, then a translation. *)
Definition quarter_turn (x y z : R) : Mat4 :=
  mkMat (mkRow 0 (-1) 0 x) (mkRow 1 0 0 y) (mkRow 0 0 1 z) (mkRow 0 0 0 1).

(** An optimizer that fails at once. *)
Definition always_fails : Minimizer :=
  fun _ _ _ => Fail "ABNORMAL_TERMINATION_IN_LNSRCH".

End Examples.
Import Examples.

(** ** Running the primitives *)

Section Heap.

Lemma set_nth_length {A} (l : list A) (u v : A) :
  set_nth (length l) v (l ++ [u]) = l ++ [v].
Proof.
  induction l as [|a l IH]; simpl; [reflexivity|].
  now rewrite IH.
Qed.

Lemma nth_fresh (h : list (list R)) (v : list R) :
  nth (length h) (h ++ [v]) [] = v.
Proof.
  rewrite app_nth2 by lia.
  now rewrite Nat.sub_diag.
Qed.

Lemma nth_old (h hx : list (list R)) (r : nat) :
  (r < length h)%nat -> nth r (h ++ hx) [] = nth r h [].
Proof. intros Hr. now rewrite app_nth1. Qed.

Lemma active_to_full_run (c : Chain) (a : list R) (s : ref) (w : World) :
  active_to_full c a s w =
  (inr (length (heap w)),
   mkWorld (heap w ++ [merge_values c a (nth s (heap w) [])]) (events w)).
Proof.
  unfold active_to_full, bind, read, alloc, write, ret; simpl.
  now rewrite set_nth_length.
Qed.

Lemma forward_kinematics_run (c : Chain) (y : ref) (w : World) :
  forward_kinematics c y w =
  (inr (fk c (nth y (heap w) [])),
   mkWorld (heap w) (events w ++ [EvForwardKinematics (nth y (heap w) [])])).
Proof. reflexivity. Qed.

End Heap.

(** ** The norms of the code and the norms of the spec *)

Section Norms.

Lemma norm_sub3 (a0 a1 a2 b0 b1 b2 : R) :
  norm [a0 - b0; a1 - b1; a2 - b2] = euclid3 (a0, a1, a2) (b0, b1, b2).
Proof.
  unfold norm, sum_sq, euclid3, Rsqr; simpl.
  f_equal; ring.
Qed.

Lemma position_error_code (pose target : Mat4) :
  np_sub (slice_col pose 3) (slice_col target 3) =
  inr [e3 (row0 pose) - e3 (row0 target);
       e3 (row1 pose) - e3 (row1 target);
       e3 (row2 pose) - e3 (row2 target)].
Proof. reflexivity. Qed.

Lemma norm_fro_sub3 (p t : Mat4) (d : list (list R)) :
  np_sub2 (slice_rot p) (slice_rot t) = inr d -> norm_fro d = frobenius3 p t.
Proof.
  intros H. cbn in H. injection H as <-.
  unfold norm_fro, sum_sq, frobenius3, Rsqr; simpl.
  f_equal; ring.
Qed.

End Norms.

(** ** One evaluation of the objective *)

Section Objective.

Variable c : Chain.
Variable target_frame : Mat4.
Variable starting : ref.

Lemma optimize_target_function_run (x : list R) (w : World) :
  optimize_target_function c (slice_col target_frame 3) starting x w =
  (inr (length (heap w), positionError (fk c (merged c starting x w)) target_frame),
   mkWorld (heap w ++ [merged c starting x w])
           (events w ++ [EvForwardKinematics (merged c starting x w)])).
Proof.
  unfold optimize_target_function, bind.
  rewrite active_to_full_run, forward_kinematics_run; simpl.
  rewrite nth_fresh. fold (merged c starting x w).
  unfold lift, ret; simpl.
  unfold positionError, translation.
  now rewrite norm_sub3.
Qed.

(** The value and the trace of one evaluation, for each mode. *)
Lemma eval_objective_run (m : OrientationMode) (x : list R) (w : World) :
  eval_objective c target_frame (mode_arg m) starting x w =
  (inr (code_objective m (fk c (merged c starting x w)) target_frame),
   mkWorld (heap w ++ [merged c starting x w])
           (events w ++ repeat (EvForwardKinematics (merged c starting x w))
                               (fk_calls_per_evaluation m))).
Proof.
  destruct m; unfold eval_objective; simpl; unfold bind at 1; simpl;
    unfold bind at 1; rewrite optimize_target_function_run; simpl;
    try reflexivity;
    unfold bind; rewrite forward_kinematics_run; simpl;
    rewrite nth_fresh; fold (merged c starting x w); unfold lift, ret; simpl;
    rewrite <- app_assoc; simpl.
  - now rewrite norm_sub3.
  - now rewrite norm_sub3.
  - now rewrite norm_sub3.
  - unfold norm_fro, sum_sq, frobenius3, Rsqr; simpl.
    do 5 f_equal; ring.
Qed.

End Objective.

(** ** The objective: value and collaborator calls *)

Ltac run_objective m :=
  let H := fresh "Hrun" in
  pose proof (fun c tf s => eval_objective_run c tf s m) as H;
  cbn [mode_arg] in H; rewrite H; clear H.

Section ObjectiveClaims.

Lemma fk_calls_app (l1 l2 : list Event) :
  fk_calls (l1 ++ l2) = (fk_calls l1 + fk_calls l2)%nat.
Proof. unfold fk_calls. now rewrite filter_app, length_app. Qed.

Lemma fk_calls_repeat (y : list R) (n : nat) :
  fk_calls (repeat (EvForwardKinematics y) n) = n.
Proof.
  induction n as [|n IH]; [reflexivity|].
  unfold fk_calls in *; simpl. now rewrite IH.
Qed.

Lemma position_error_slider :
  positionError (translate 0 0 0) (translate 2 0 0) = 2.
Proof.
  unfold positionError, translation, euclid3; simpl.
  replace ((0 - 2)² + (0 - 0)² + (0 - 0)²) with (2²) by (unfold Rsqr; ring).
  apply sqrt_Rsqr; lra.
Qed.

(** C1 (the code departs from the claim).  On the one-joint slider at rest,
    with the target two units away along the axis and no orientation, the
    objective that the code evaluates is the distance, 2, while the base
    objective of the claim is the squared distance, 4. *)
Theorem base_objective_is_the_unsquared_distance :
  let w := world_of [0] in
  let target := translate 2 0 0 in
  let pose := fk slider (merged slider 0%nat [0] w) in
  fst (eval_objective slider target None 0%nat [0] w) = inr 2
  /\ baseObjective ModeNone pose target = 4
  /\ 2 <> 4.
Proof.
  cbv zeta. split; [|split].
  - run_objective ModeNone.
    simpl. f_equal. apply position_error_slider.
  - unfold baseObjective. simpl orientationError.
    change (fk slider (merged slider 0%nat [0] (world_of [0]))) with
      (translate (nth 0 (merged slider 0%nat [0] (world_of [0])) 0) 0 0).
    simpl nth. rewrite position_error_slider.
    unfold ORIENTATION_WEIGHT, Rsqr. ring.
  - lra.
Qed.

(** C8.  The orientation mode selects the compared slices: X, Y and Z
    compare rotation column 0, 1 and 2 of the computed pose with the same
    column of the target by the Euclidean norm of the difference, all
    compares the 3x3 rotation blocks by the Frobenius norm, and with None
    the objective is the position error alone, without an orientation
    term. *)
Theorem orientation_mode_selects_the_compared_slices
    (c : Chain) (target_frame : Mat4) (starting : ref) (x : list R) (w : World) :
  let pose := fk c (merged c starting x w) in
  let value mode := fst (eval_objective c target_frame mode starting x w) in
  let position := positionError pose target_frame in
  value None = inr position
  /\ value (Some "X"%string) =
       inr (position + ORIENTATION_COEFF *
              euclid3 (rotation_column 0 pose) (rotation_column 0 target_frame))
  /\ value (Some "Y"%string) =
       inr (position + ORIENTATION_COEFF *
              euclid3 (rotation_column 1 pose) (rotation_column 1 target_frame))
  /\ value (Some "Z"%string) =
       inr (position + ORIENTATION_COEFF *
              euclid3 (rotation_column 2 pose) (rotation_column 2 target_frame))
  /\ value (Some "all"%string) =
       inr (position + ORIENTATION_COEFF * frobenius3 pose target_frame).
Proof.
  cbv zeta.
  repeat split.
  - now run_objective ModeNone.
  - now run_objective ModeX.
  - now run_objective ModeY.
  - now run_objective ModeZ.
  - now run_objective ModeAll.
Qed.

End ObjectiveClaims.

(** ** The parameter-space mapper *)

Section Mapper.

Context {A : Type}.

Lemma place_compress (mask : list bool) (f : list A) :
  place_values mask (compress mask f) f = f.
Proof.
  revert f; induction mask as [|b mask IH]; intros [|a f]; simpl; try reflexivity.
  - destruct b; simpl; now rewrite IH.
Qed.

Lemma compress_place (mask : list bool) (a f : list A) :
  length f = length mask ->
  length a = length (filter (fun b => b) mask) ->
  compress mask (place_values mask a f) = a.
Proof.
  revert a f; induction mask as [|b mask IH]; intros a [|x f] Hf Ha;
    simpl in *; try discriminate.
  - now destruct a.
  - destruct b; simpl in *.
    + destruct a as [|v a]; [discriminate|]. simpl in *.
      f_equal. apply IH; lia.
    + apply IH; lia.
Qed.

Lemma place_length (mask : list bool) (a f : list A) :
  length (place_values mask a f) = length f.
Proof.
  revert mask a; induction f as [|x f IH]; intros [|b mask] a; simpl; try reflexivity.
  destruct b; [destruct a|]; simpl; now rewrite IH.
Qed.

(** Entries at positions whose flag is not set are untouched. *)
Lemma place_fixed (mask : list bool) (a f : list A) (i : nat) (d : A) :
  nth i mask false = false -> nth i (place_values mask a f) d = nth i f d.
Proof.
  revert mask a i; induction f as [|x f IH]; intros [|b mask] a i Hi; simpl;
    try reflexivity.
  destruct b.
  - destruct i as [|i]; [discriminate|].
    destruct a; simpl; apply IH; exact Hi.
  - destruct i as [|i]; [reflexivity|]. simpl. apply IH; exact Hi.
Qed.

Lemma compress_skip (k : nat) (mask : list bool) (l : list A) :
  compress (repeat false k ++ mask) l = compress mask (skipn k l).
Proof.
  revert l; induction k as [|k IH]; intros l; simpl; [reflexivity|].
  destruct l as [|a l]; [now destruct mask as [|[] ?]|]. apply IH.
Qed.

Lemma compress_all (n : nat) (l : list A) :
  (length l <= n)%nat -> compress (repeat true n) l = l.
Proof.
  revert l; induction n as [|n IH]; intros [|a l] Hl; simpl in *;
    try reflexivity; try lia.
  f_equal. apply IH; lia.
Qed.

End Mapper.

Lemma compress_map_filter {A B} (p : A -> bool) (g : A -> B) (l : list A) :
  compress (map p l) (map g l) = map g (filter p l).
Proof.
  induction l as [|a l IH]; simpl; [reflexivity|].
  destruct (p a); simpl; now rewrite IH.
Qed.

Lemma compress_combine {A B} (p : A -> bool) (l : list A) (s : list B) :
  compress (map p l) s = map snd (filter (fun q => p (fst q)) (combine l s)).
Proof.
  revert s; induction l as [|a l IH]; intros [|b s]; simpl; try reflexivity.
  - now destruct (p a).
  - destruct (p a); simpl; now rewrite IH.
Qed.

Lemma mask_count (c : Chain) :
  length (filter (fun b => b) (active_links_mask c)) =
  length (filter is_active (links c)).
Proof.
  unfold active_links_mask.
  induction (links c) as [|l ls IH]; simpl; [reflexivity|].
  destruct (is_active l); simpl; now rewrite IH.
Qed.

Lemma real_bounds_filter (c : Chain) :
  real_bounds c = map bounds (filter is_active (links c)).
Proof. apply compress_map_filter. Qed.

(** On a chain whose active links are those from [first_active_joint] on,
    the slice of line 93 is the reduction of line 109. *)
Lemma suffix_slice_is_reduce (c : Chain) (s : list R) :
  active_suffix c -> length s = length (links c) ->
  skipn (first_active_joint c) s = active_from_full c s.
Proof.
  intros Hc Hs. unfold active_from_full. rewrite Hc, compress_skip.
  symmetry. apply compress_all. rewrite length_skipn. lia.
Qed.

(** C6.  Reducing a full vector and merging the result back gives the full
    vector again; merging an active vector that lies within the chain's
    reduced bounds into a full vector (one entry per link) and reducing the
    result gives the active vector again. *)
Theorem reduce_merge_round_trips (c : Chain) (f a : list R) :
  merge_values c (active_from_full c f) f = f
  /\ (length f = length (links c) ->
      Forall2 within a (real_bounds c) ->
      active_from_full c (merge_values c a f) = a).
Proof.
  split.
  - apply place_compress.
  - intros Hf Ha. apply compress_place.
    + unfold active_links_mask. now rewrite length_map.
    + rewrite (Forall2_length Ha), real_bounds_filter, length_map.
      symmetry. apply mask_count.
Qed.

Lemma reduce_merge_round_trips_witness :
  length [0; 0; 0] = length (links arm)
  /\ Forall2 within [1 / 2; 7] (real_bounds arm)
  /\ merge_values arm (active_from_full arm [0; 0; 0]) [0; 0; 0] = [0; 0; 0]
  /\ active_from_full arm (merge_values arm [1 / 2; 7] [0; 0; 0]) = [1 / 2; 7].
Proof.
  assert (H1 : length [0; 0; 0] = length (links arm)) by reflexivity.
  assert (H2 : Forall2 within [1 / 2; 7] (real_bounds arm)).
  { repeat constructor; simpl; lra. }
  pose proof (reduce_merge_round_trips arm [0; 0; 0] [1 / 2; 7]) as [Hm Hr].
  split; [exact H1|]. split; [exact H2|]. split; [exact Hm|].
  exact (Hr H1 H2).
Defined.

(** ** Worlds only grow *)

Section Growth.

Lemma extends_refl (w : World) : extends w w.
Proof. split; exists []; now rewrite app_nil_r. Qed.

Lemma extends_trans (w1 w2 w3 : World) :
  extends w1 w2 -> extends w2 w3 -> extends w1 w3.
Proof.
  intros [[h1 H1] [e1 E1]] [[h2 H2] [e2 E2]]. split.
  - exists (h1 ++ h2). now rewrite H2, H1, app_assoc.
  - exists (e1 ++ e2). now rewrite E2, E1, app_assoc.
Qed.

Lemma extends_heap (w w' : World) (r : ref) :
  extends w w' -> (r < length (heap w))%nat -> nth r (heap w') [] = nth r (heap w) [].
Proof. intros [[hx H] _] Hr. rewrite H. now apply nth_old. Qed.

Lemma extends_length (w w' : World) :
  extends w w' -> (length (heap w) <= length (heap w'))%nat.
Proof. intros [[hx H] _]. rewrite H, length_app. lia. Qed.

Lemma extends_emit (w : World) (e : Event) :
  extends w (mkWorld (heap w) (events w ++ [e])).
Proof. split; simpl; [exists []; now rewrite app_nil_r | now exists [e]]. Qed.

Lemma extends_push (w : World) (v : list R) (ex : list Event) :
  extends w (mkWorld (heap w ++ [v]) (events w ++ ex)).
Proof. split; simpl; [now exists [v] | now exists ex]. Qed.

Lemma np_sub_error (a b : list R) (e : Exn) :
  np_sub a b = inl e -> e = broadcast_error.
Proof.
  unfold np_sub. destruct (Nat.eqb (length a) (length b)); [discriminate|].
  destruct a as [|a0 [|a1 a]]; destruct b as [|b0 [|b1 b]]; simpl;
    intros H; try discriminate; now injection H.
Qed.

End Growth.

(** ** Mode selection *)

Section Modes.

Variable c : Chain.
Variable target_frame : Mat4.

Lemma recognized_mode_arg (mode : option string) :
  recognized mode = true -> exists m, mode = mode_arg m.
Proof.
  destruct mode as [s|]; [|now exists ModeNone].
  simpl. intros H.
  repeat (apply orb_true_iff in H; destruct H as [H|H]);
    apply String.eqb_eq in H; subst s.
  - now exists ModeX.
  - now exists ModeY.
  - now exists ModeZ.
  - now exists ModeAll.
Qed.

Lemma mode_arg_recognized (m : OrientationMode) : recognized (mode_arg m) = true.
Proof. now destruct m. Qed.

(** For a recognized mode line 76 is not reached, and the closure is the
    one that [eval_objective] runs. *)
Lemma make_optimize_function_recognized (m : OrientationMode) :
  exists f,
    make_optimize_function c target_frame (slice_col target_frame 3) (mode_arg m) = inr f
    /\ forall s x w, f s x w = eval_objective c target_frame (mode_arg m) s x w.
Proof. destruct m; eexists; split; reflexivity. Qed.

(** Any other string reaches line 76. *)
Lemma make_optimize_function_unknown (target : list R) (mode : string) :
  recognized (Some mode) = false ->
  make_optimize_function c target_frame target (Some mode) = inl (unknown_mode mode).
Proof.
  simpl. intros H.
  repeat (apply orb_false_iff in H; destruct H as [H ?]).
  unfold make_optimize_function, select_orientation.
  now repeat match goal with E : String.eqb _ _ = false |- _ => rewrite E; clear E end.
Qed.

End Modes.

(** ** Runs of the optimizer against the objective *)

Section Runs.

Variable c : Chain.
Variable target_frame : Mat4.
Variable starting : ref.

Lemma objective_monotone (m : OrientationMode) (x : list R) :
  monotone (eval_objective c target_frame (mode_arg m) starting x).
Proof. intros w. rewrite eval_objective_run. apply extends_push. Qed.

Lemma objective_never_raises (m : OrientationMode) (x : list R) :
  shape_errors_only (eval_objective c target_frame (mode_arg m) starting x).
Proof. intros w e. rewrite eval_objective_run. discriminate. Qed.

(** One evaluation of the final objective: the slice of line 93 is
    subtracted first, then the base objective is evaluated. *)
Lemma eval_total_run (m : OrientationMode) (reg : option R) (x : list R) (w : World) :
  eval_total c target_frame (mode_arg m) starting reg x w =
  match reg with
  | None => eval_objective c target_frame (mode_arg m) starting x w
  | Some lam =>
      match np_sub x (skipn (first_active_joint c) (nth starting (heap w) [])) with
      | inl e => (inl e, w)
      | inr diff =>
          (inr (code_objective m (fk c (merged c starting x w)) target_frame
                + lam * norm diff),
           mkWorld (heap w ++ [merged c starting x w])
                   (events w ++ repeat (EvForwardKinematics (merged c starting x w))
                                       (fk_calls_per_evaluation m)))
      end
  end.
Proof.
  destruct (make_optimize_function_recognized c target_frame m) as [f [Hf Hrun]].
  unfold eval_total, bind at 1, lift at 1.
  rewrite Hf. destruct reg as [lam|]; simpl; [|apply Hrun].
  unfold bind at 1, read; simpl. unfold bind at 1, lift at 1.
  destruct (np_sub x _) as [e|diff]; [reflexivity|].
  unfold bind. rewrite Hrun, eval_objective_run. reflexivity.
Qed.

Lemma total_monotone (m : OrientationMode) (reg : option R) (x : list R) :
  monotone (eval_total c target_frame (mode_arg m) starting reg x).
Proof.
  intros w. rewrite eval_total_run. destruct reg as [lam|].
  - destruct (np_sub x _); simpl; [apply extends_refl | apply extends_push].
  - apply objective_monotone.
Qed.

Lemma total_shape_errors_only (m : OrientationMode) (reg : option R) (x : list R) :
  shape_errors_only (eval_total c target_frame (mode_arg m) starting reg x).
Proof.
  intros w e. rewrite eval_total_run. destruct reg as [lam|].
  - destruct (np_sub x _) eqn:E; simpl; [|discriminate].
    intros H; injection H as <-. eapply np_sub_error; eassumption.
  - apply objective_never_raises.
Qed.

Lemma run_strategy_monotone (objective : list R -> M R) (s : Strategy) :
  (forall x, monotone (objective x)) -> monotone (run_strategy objective s).
Proof.
  intros Hobj. induction s as [x k IH|res|msg]; intros w; simpl.
  - unfold bind at 1, emit; simpl. unfold bind.
    pose proof (extends_emit w (EvObjective x)) as Hw.
    specialize (Hobj x (mkWorld (heap w) (events w ++ [EvObjective x]))).
    destruct (objective x _) as [[e|v] w1]; simpl in *.
    + eapply extends_trans; eassumption.
    + eapply extends_trans; [eassumption|].
      eapply extends_trans; [exact Hobj | apply IH].
  - apply extends_refl.
  - apply extends_refl.
Qed.

Lemma run_strategy_errors (objective : list R -> M R) (s : Strategy) (w : World) (e : Exn) :
  (forall x, shape_errors_only (objective x)) ->
  fst (run_strategy objective s w) = inl e ->
  e = broadcast_error \/ exists msg, e = OptimizationFailure msg.
Proof.
  intros Hobj. revert w. induction s as [x k IH|res|msg]; intros w; simpl.
  - unfold bind at 1, emit; simpl. unfold bind.
    pose proof (Hobj x (mkWorld (heap w) (events w ++ [EvObjective x]))) as Hx.
    destruct (objective x _) as [[e'|v] w1]; simpl in *.
    + intros H; injection H as <-. left. now apply Hx.
    + apply IH.
  - discriminate.
  - intros H; injection H as <-. right. now exists msg.
Qed.

End Runs.

(** C2 (as stated, refuted).  With orientation mode "X" and no
    regularization weight one evaluation of the composed objective calls
    the forward kinematics twice, not once. *)
Lemma composed_objective_calls_forward_kinematics_twice_for_X :
  fk_calls (events (snd (eval_total slider (translate 2 0 0) (Some "X"%string)
                           0%nat None [0] (world_of [0])))) <> 1%nat.
Proof.
  pose proof (eval_total_run slider (translate 2 0 0) 0%nat ModeX None [0]
                (world_of [0])) as H.
  cbn [mode_arg] in H. rewrite H. clear H.
  run_objective ModeX.
  simpl. discriminate.
Qed.

(** C2 (amended).  Every evaluation of the composed objective (the final
    objective, with or without a regularization weight) that returns a
    value calls the forward kinematics once when the orientation mode is
    None and twice under X, Y, Z and all: once for the position and once
    more for the orientation slice, both times with the same merged full
    vector, and these calls are all it adds to the log.  Without a weight
    every evaluation returns; an evaluation that raises leaves the world
    as it found it. *)
Theorem forward_kinematics_calls_per_objective_evaluation
    (c : Chain) (target_frame : Mat4) (starting : ref) (m : OrientationMode)
    (regularization_parameter : option R) (x : list R) (w : World) :
  let run := eval_total c target_frame (mode_arg m) starting
               regularization_parameter x w in
  let n := match m with ModeNone => 1%nat | _ => 2%nat end in
  (forall v, fst run = inr v ->
     events (snd run) =
       events w ++ repeat (EvForwardKinematics (merged c starting x w)) n
     /\ fk_calls (events (snd run)) = (fk_calls (events w) + n)%nat)
  /\ (regularization_parameter = None -> exists v, fst run = inr v)
  /\ (forall e, fst run = inl e -> snd run = w).
Proof.
  cbv zeta. rewrite eval_total_run.
  assert (Hn : fk_calls_per_evaluation m = match m with ModeNone => 1%nat | _ => 2%nat end)
    by (destruct m; reflexivity).
  rewrite <- Hn. clear Hn.
  destruct regularization_parameter as [lam|].
  - destruct (np_sub x _) as [e|diff]; simpl.
    + refine (conj _ (conj _ _)); [intros v H | intros H | intros e' H];
        try discriminate; reflexivity.
    + refine (conj _ (conj _ _)); [intros v _ | intros H | intros e' H];
        try discriminate.
      split; [reflexivity|]. now rewrite fk_calls_app, fk_calls_repeat.
  - rewrite eval_objective_run; simpl.
    refine (conj _ (conj _ _)); [intros v _ | intros _ | intros e' H];
      try discriminate.
    + split; [reflexivity|]. now rewrite fk_calls_app, fk_calls_repeat.
    + now eexists.
Qed.

Lemma forward_kinematics_calls_per_objective_evaluation_witness :
  let w := world_of [0; 0; 0] in
  let run := eval_total rooted (translate 1 1 0) (Some "X"%string) 0%nat (Some 3)
               [1; 1] w in
  (exists v, fst run = inr v)
  /\ fk_calls (events (snd run)) = (fk_calls (events w) + 2)%nat.
Proof.
  cbv zeta.
  assert (H : exists v,
            fst (eval_total rooted (translate 1 1 0) (Some "X"%string) 0%nat (Some 3)
                   [1; 1] (world_of [0; 0; 0])) = inr v)
    by (eexists; reflexivity).
  destruct H as [v Hv].
  destruct (forward_kinematics_calls_per_objective_evaluation
              rooted (translate 1 1 0) 0%nat ModeX (Some 3) [1; 1]
              (world_of [0; 0; 0])) as [Hret _].
  split; [exists v; exact Hv | exact (proj2 (Hret v Hv))].
Defined.

(** ** The solver *)

Section Solver.

Variable minimize : Minimizer.
Variable c : Chain.
Variable target_frame : Mat4.
Variable regularization_parameter : option R.
Variable max_iter : option Z.

(** Line 76 is reached before anything else happens. *)
Lemma solve_unknown_mode (starting : option ref) (mode : string) (w : World) :
  recognized (Some mode) = false ->
  inverse_kinematic_optimization minimize c target_frame starting
    regularization_parameter max_iter (Some mode) w =
  (inl (unknown_mode mode), w).
Proof.
  intros H. unfold inverse_kinematic_optimization, bind at 1, lift at 1.
  now rewrite make_optimize_function_unknown.
Qed.

(** Line 88 is reached when the mode is recognized and there is no
    starting configuration. *)
Lemma solve_missing_start (m : OrientationMode) (w : World) :
  inverse_kinematic_optimization minimize c target_frame None
    regularization_parameter max_iter (mode_arg m) w =
  (inl missing_start, w).
Proof. destruct m; reflexivity. Qed.

(** Lines 90-113 for a recognized mode and a starting configuration. *)
Lemma solve_run (m : OrientationMode) (s : ref) (w : World) :
  inverse_kinematic_optimization minimize c target_frame (Some s)
    regularization_parameter max_iter (mode_arg m) w =
  match run_strategy (eval_total c target_frame (mode_arg m) s regularization_parameter)
                     (minimize (active_from_full c (nth s (heap w) []))
                               (real_bounds c) max_iter)
                     (at_call c max_iter s w)
  with
  | (inl e, w1) => (inl e, w1)
  | (inr res, w1) =>
      (inr (length (heap w1)),
       mkWorld (heap w1 ++ [merge_values c (res_x res) (nth s (heap w1) [])])
               (events w1 ++ [EvLogInfo (res_nit res)]))
  end.
Proof.
  destruct (make_optimize_function_recognized c target_frame m) as [f [Hf Hrun]].
  unfold inverse_kinematic_optimization, bind at 1, lift at 1. rewrite Hf.
  unfold bind at 1, ret at 1. unfold bind at 1, read at 1; simpl.
  unfold bind at 1, emit at 1; simpl. fold (at_call c max_iter s w).
  unfold bind at 1.
  replace (optimize_total c f s regularization_parameter)
    with (eval_total c target_frame (mode_arg m) s regularization_parameter).
  2:{ unfold eval_total, bind, lift. rewrite Hf. reflexivity. }
  destruct (run_strategy _ _ _) as [[e|res] w1]; [reflexivity|].
  unfold bind, emit; simpl.
  now rewrite active_to_full_run.
Qed.

End Solver.

(** ** Regularization *)

Section Regularization.

Lemma norm_is_distance (a b : list R) :
  length a = length b ->
  exists diff, np_sub a b = inr diff /\ norm diff = distance a b.
Proof.
  intros H. unfold np_sub. rewrite H, Nat.eqb_refl.
  eexists; split; [reflexivity|].
  unfold norm, distance, sum_sq. f_equal.
  induction (combine a b) as [|p l IH]; simpl; [reflexivity|].
  rewrite IH. unfold Rsqr. reflexivity.
Qed.

(** On a chain whose active links are those from [first_active_joint] on,
    the final objective is the base objective plus the weight times the
    distance of [x] to the reduced starting vector. *)
Lemma regularization_on_suffix_chains
    (c : Chain) (target_frame : Mat4) (m : OrientationMode) (s : ref)
    (lam : R) (x : list R) (w : World) :
  active_suffix c ->
  length (nth s (heap w) []) = length (links c) ->
  length x = length (active_from_full c (nth s (heap w) [])) ->
  fst (eval_total c target_frame (mode_arg m) s (Some lam) x w) =
  inr (code_objective m (fk c (merged c s x w)) target_frame
       + regularizationTerm c lam x (nth s (heap w) [])).
Proof.
  intros Hc Hs Hx. rewrite eval_total_run.
  rewrite (suffix_slice_is_reduce c _ Hc Hs).
  destruct (norm_is_distance x _ Hx) as [diff [Hd Hn]].
  rewrite Hd. simpl. unfold regularizationTerm. now rewrite Hn.
Qed.

Lemma norm_finger : norm [1 - 1; 1 - 5] = 4.
Proof.
  unfold norm, sum_sq; simpl.
  replace ((1 - 1) * (1 - 1) + ((1 - 5) * (1 - 5) + 0)) with (4²)
    by (unfold Rsqr; ring).
  apply sqrt_Rsqr; lra.
Qed.

Lemma position_error_same (p : Mat4) : positionError p p = 0.
Proof.
  unfold positionError, euclid3, translation.
  replace ((e3 (row0 p) - e3 (row0 p))² + (e3 (row1 p) - e3 (row1 p))²
           + (e3 (row2 p) - e3 (row2 p))²) with 0 by (unfold Rsqr; ring).
  apply sqrt_0.
Qed.

Lemma distance_same (a : list R) : distance a a = 0.
Proof.
  unfold distance.
  replace (fold_right Rplus 0 (map (fun p => (fst p - snd p)²) (combine a a))) with 0;
    [apply sqrt_0|].
  induction a as [|x a IH]; simpl; [reflexivity|].
  rewrite <- IH. unfold Rsqr. ring.
Qed.

(** C3 (the code departs from the claim).  Line 93 subtracts the slice
    [starting_nodes_angles[chain.first_active_joint:]], not the reduction
    that lines 101 and 109 use.  On a chain with a fixed link after its
    active links the two differ.  On the arm (two active joints and a fixed
    tip) the evaluation at the initial guess raises numpy's shape error
    before the forward kinematics is called, where the claim's term is 0.
    On the finger (one active joint and a fixed tip) the one-element [x] is
    stretched over the slice and the objective is 4, where the claim's base
    objective and regularization term are both 0. *)
Theorem regularization_subtracts_the_suffix_slice :
  eval_total arm (translate 0 0 0) None 0%nat (Some 1) [0; 0] (world_of [0; 0; 0])
    = (inl broadcast_error, world_of [0; 0; 0])
  /\ regularizationTerm arm 1 [0; 0] [0; 0; 0] = 0
  /\ fst (eval_total finger (translate 1 0 0) None 0%nat (Some 1) [1] (world_of [1; 5]))
       = inr 4
  /\ fst (eval_objective finger (translate 1 0 0) None 0%nat [1] (world_of [1; 5]))
       = inr 0
  /\ regularizationTerm finger 1 [1] [1; 5] = 0.
Proof.
  split; [reflexivity|]. split.
  { unfold regularizationTerm.
    change (active_from_full arm [0; 0; 0]) with [0; 0].
    rewrite distance_same. ring. }
  split.
  { pose proof (eval_total_run finger (translate 1 0 0) 0%nat ModeNone (Some 1) [1]
                  (world_of [1; 5])) as H.
    cbn [mode_arg] in H. rewrite H. clear H.
    change (np_sub [1] (skipn (first_active_joint finger) (nth 0 (heap (world_of [1; 5])) [])))
      with (@inr Exn (list R) [1 - 1; 1 - 5]).
    cbn [fst]. f_equal. rewrite norm_finger.
    change (fk finger (merged finger 0%nat [1] (world_of [1; 5]))) with (translate 1 0 0).
    cbn [code_objective]. rewrite position_error_same. ring. }
  split.
  { run_objective ModeNone. cbn [fst code_objective].
    change (fk finger (merged finger 0%nat [1] (world_of [1; 5]))) with (translate 1 0 0).
    now rewrite position_error_same. }
  unfold regularizationTerm.
  change (active_from_full finger [1; 5]) with [1].
  rewrite distance_same. ring.
Qed.

End Regularization.

(** ** The solver's contract *)

Section Contract.

Variable minimize : Minimizer.
Variable c : Chain.
Variable target_frame : Mat4.
Variable regularization_parameter : option R.
Variable max_iter : option Z.

Lemma unknown_is_not_missing (mode : string) : unknown_mode mode <> missing_start.
Proof. discriminate. Qed.

Lemma broadcast_is_not_missing : broadcast_error <> missing_start.
Proof. discriminate. Qed.

Lemma broadcast_is_not_unknown (mode : string) : broadcast_error <> unknown_mode mode.
Proof. discriminate. Qed.

Lemma unrecognized_is_a_string (mode : option string) :
  recognized mode = false -> exists s, mode = Some s.
Proof. destruct mode as [s|]; [now exists s | discriminate]. Qed.

(** The errors of a call that reaches the optimizer. *)
Lemma solve_errors_after_setup (m : OrientationMode) (s : ref) (w : World) (e : Exn) :
  fst (inverse_kinematic_optimization minimize c target_frame (Some s)
         regularization_parameter max_iter (mode_arg m) w) = inl e ->
  e = broadcast_error \/ exists msg, e = OptimizationFailure msg.
Proof.
  rewrite solve_run.
  destruct (run_strategy _ _ _) as [[e'|res] w1] eqn:E; simpl; [|discriminate].
  intros H; injection H as <-.
  eapply run_strategy_errors with (w := at_call c max_iter s w).
  - intros x. apply total_shape_errors_only.
  - now rewrite E.
Qed.

(** A call that reaches the optimizer logs the call first and leaves the
    arrays it was given as they are. *)
Lemma solve_extends (m : OrientationMode) (s : ref) (w : World) :
  extends (at_call c max_iter s w)
    (snd (inverse_kinematic_optimization minimize c target_frame (Some s)
            regularization_parameter max_iter (mode_arg m) w)).
Proof.
  rewrite solve_run.
  pose proof (run_strategy_monotone
                (eval_total c target_frame (mode_arg m) s regularization_parameter)
                (minimize (active_from_full c (nth s (heap w) [])) (real_bounds c) max_iter)
                (fun x => total_monotone c target_frame s m regularization_parameter x)
                (at_call c max_iter s w)) as Hrun.
  destruct (run_strategy _ _ _) as [[e|res] w1]; simpl in *; [exact Hrun|].
  eapply extends_trans; [exact Hrun|].
  apply extends_push.
Qed.

End Contract.

(** ** Claims on the solver *)

Lemma combine_reduced {A B} (p : A -> bool) (g : A -> B) (l : list A) (s : list R) :
  combine (compress (map p l) s) (compress (map p l) (map g l)) =
  map (fun q => (snd q, g (fst q))) (filter (fun q => p (fst q)) (combine l s)).
Proof.
  revert s; induction l as [|a l IH]; intros [|x s]; simpl; try reflexivity.
  - now destruct (p a).
  - destruct (p a); simpl; now rewrite IH.
Qed.

Lemma compress_length {A B} (mask : list bool) (l1 : list A) (l2 : list B) :
  length l1 = length l2 -> length (compress mask l1) = length (compress mask l2).
Proof.
  revert l1 l2; induction mask as [|b mask IH]; intros [|a l1] [|a' l2] H;
    simpl in *; try reflexivity; try discriminate; try (now destruct b).
  destruct b; simpl; [f_equal|]; apply IH; lia.
Qed.

(** C4.  A successful call returns a new array that holds the merge of the
    optimizer's returned active vector into the starting configuration: it
    has the length of the starting configuration, agrees with it at every
    position of a link that is not active, and reduces to the optimizer's
    vector; the starting configuration itself holds what it held before
    the call. *)
Theorem solve_returns_the_merge_and_keeps_the_start
    (minimize : Minimizer) (c : Chain) (target_frame : Mat4) (s : ref)
    (regularization_parameter : option R) (max_iter : option Z)
    (orientation_mode : option string) (w w' : World) (r : ref) :
  (s < length (heap w))%nat ->
  inverse_kinematic_optimization minimize c target_frame (Some s)
    regularization_parameter max_iter orientation_mode w = (inr r, w') ->
  let start := nth s (heap w) [] in
  let returned := nth r (heap w') [] in
  exists res w1,
    run_strategy
      (eval_total c target_frame orientation_mode s regularization_parameter)
      (minimize (active_from_full c start) (real_bounds c) max_iter)
      (at_call c max_iter s w) = (inr res, w1)
    /\ returned = merge_values c (res_x res) start
    /\ length returned = length start
    /\ (forall i, nth i (active_links_mask c) false = false ->
                  nth i returned 0 = nth i start 0)
    /\ (length start = length (links c) ->
        length (res_x res) = length (filter is_active (links c)) ->
        active_from_full c returned = res_x res)
    /\ nth s (heap w') [] = start
    /\ r <> s.
Proof.
  intros Hs Hrun. cbv zeta.
  destruct (recognized orientation_mode) eqn:Hmode.
  2:{ destruct (unrecognized_is_a_string _ Hmode) as [mode ->].
      rewrite solve_unknown_mode in Hrun by exact Hmode. discriminate. }
  destruct (recognized_mode_arg _ Hmode) as [m ->].
  rewrite solve_run in Hrun.
  pose proof (run_strategy_monotone
                (eval_total c target_frame (mode_arg m) s regularization_parameter)
                (minimize (active_from_full c (nth s (heap w) [])) (real_bounds c) max_iter)
                (fun x => total_monotone c target_frame s m regularization_parameter x)
                (at_call c max_iter s w)) as Hgrow.
  destruct (run_strategy _ _ _) as [[e|res] w1] eqn:E; [discriminate|].
  injection Hrun as <- <-. simpl in Hgrow.
  assert (Hs1 : (s < length (heap w1))%nat).
  { pose proof (extends_length _ _ Hgrow) as Hl. simpl in Hl. lia. }
  assert (Hold : nth s (heap w1) [] = nth s (heap w) []).
  { now rewrite (extends_heap _ _ s Hgrow). }
  exists res, w1. simpl heap. rewrite nth_fresh, Hold.
  split; [reflexivity|]. split; [reflexivity|].
  split; [apply place_length|].
  split; [intros i Hi; now apply place_fixed|].
  split.
  { intros Hlen Hx. apply compress_place.
    - unfold active_links_mask. now rewrite length_map.
    - now rewrite mask_count. }
  split; [rewrite nth_old by exact Hs1; exact Hold | lia].
Qed.

Lemma solve_returns_the_merge_and_keeps_the_start_witness :
  let w := world_of [0; 0; 0] in
  let run := inverse_kinematic_optimization one_look arm (translate 1 0 0) (Some 0%nat)
               None None None w in
  (0 < length (heap w))%nat
  /\ run = (inr 2%nat, snd run)
  /\ nth 2 (heap (snd run)) [] = merge_values arm [0; 0] [0; 0; 0]
  /\ nth 0 (heap (snd run)) [] = [0; 0; 0].
Proof.
  cbv zeta.
  assert (H1 : Nat.lt 0 (length (heap (world_of [0; 0; 0])))) by (simpl; lia).
  assert (H2 : inverse_kinematic_optimization one_look arm (translate 1 0 0) (Some 0%nat)
                 None None None (world_of [0; 0; 0])
               = (inr 2%nat,
                  snd (inverse_kinematic_optimization one_look arm (translate 1 0 0)
                         (Some 0%nat) None None None (world_of [0; 0; 0]))))
    by reflexivity.
  destruct (solve_returns_the_merge_and_keeps_the_start
              one_look arm (translate 1 0 0) 0%nat None None None
              (world_of [0; 0; 0]) _ 2%nat H1 H2)
    as [res [w1 [Hres [Hret [_ [_ [_ [Hstart _]]]]]]]].
  split; [exact H1|]. split; [exact H2|]. split; [reflexivity | exact Hstart].
Defined.

(** C5.  When the starting configuration is absent or the orientation mode
    is not a recognized value, the call raises [ValueError] and leaves the
    world as it found it: the optimizer has not been invoked, the objective
    has not been evaluated and the forward kinematics has not been
    called. *)
Theorem invalid_arguments_raise_before_the_optimizer
    (minimize : Minimizer) (c : Chain) (target_frame : Mat4)
    (starting_nodes_angles : option ref) (regularization_parameter : option R)
    (max_iter : option Z) (orientation_mode : option string) (w : World) :
  starting_nodes_angles = None \/ recognized orientation_mode = false ->
  let run := inverse_kinematic_optimization minimize c target_frame
               starting_nodes_angles regularization_parameter max_iter
               orientation_mode w in
  (exists msg, fst run = inl (ValueError msg))
  /\ snd run = w
  /\ minimize_calls (events (snd run)) = minimize_calls (events w)
  /\ objective_calls (events (snd run)) = objective_calls (events w)
  /\ fk_calls (events (snd run)) = fk_calls (events w).
Proof.
  intros H. cbv zeta.
  destruct (recognized orientation_mode) eqn:Hmode.
  - destruct H as [-> | H]; [|discriminate].
    destruct (recognized_mode_arg _ Hmode) as [m ->].
    rewrite solve_missing_start; simpl.
    repeat split; try reflexivity. now eexists.
  - destruct (unrecognized_is_a_string _ Hmode) as [mode ->].
    rewrite solve_unknown_mode by exact Hmode; simpl.
    repeat split; try reflexivity. now eexists.
Qed.

Lemma invalid_arguments_raise_before_the_optimizer_witness :
  let run := inverse_kinematic_optimization one_look arm (translate 1 0 0)
               (Some 0%nat) None None (Some "W"%string) (world_of [0; 0; 0]) in
  recognized (Some "W"%string) = false
  /\ (exists msg, fst run = inl (ValueError msg))
  /\ snd run = world_of [0; 0; 0].
Proof.
  cbv zeta.
  assert (H : recognized (Some "W"%string) = false) by reflexivity.
  destruct (invalid_arguments_raise_before_the_optimizer
              one_look arm (translate 1 0 0) (Some 0%nat) None None
              (Some "W"%string) (world_of [0; 0; 0]) (or_intror H))
    as [Hmsg [Hw _]].
  split; [exact H|]. split; [exact Hmsg | exact Hw].
Defined.

(** C7.  A call that passes the argument checks applies the optimizer to
    the final objective, the reduced starting configuration, the bounds and
    the iteration cap, and its outcome is the outcome of that run.  The
    bounds it passes are the bound pairs of all links, reduced as the
    starting configuration is reduced for the initial guess: there is one
    pair per active link, each pair is the link's own (an open side stays
    open), and the k-th pair and the k-th entry of the initial guess belong
    to the same link. *)
Theorem bounds_passed_to_the_optimizer
    (minimize : Minimizer) (c : Chain) (target_frame : Mat4) (s : ref)
    (regularization_parameter : option R) (max_iter : option Z)
    (orientation_mode : option string) (w : World) :
  recognized orientation_mode = true ->
  let start := nth s (heap w) [] in
  let x0 := active_from_full c start in
  let passed := active_from_full c (map bounds (links c)) in
  let call := mkWorld (heap w) (events w ++ [EvMinimize x0 passed max_iter]) in
  let run := run_strategy
               (eval_total c target_frame orientation_mode s regularization_parameter)
               (minimize x0 passed max_iter) call in
  let solve := inverse_kinematic_optimization minimize c target_frame (Some s)
                 regularization_parameter max_iter orientation_mode w in
  (forall e, fst run = inl e -> solve = (inl e, snd run))
  /\ (forall res, fst run = inr res ->
        exists r, fst solve = inr r
                  /\ nth r (heap (snd solve)) [] =
                     merge_values c (res_x res) (nth s (heap (snd run)) [])
                  /\ events (snd solve) = events (snd run) ++ [EvLogInfo (res_nit res)])
  /\ (exists rest, events (snd solve) = events w ++ EvMinimize x0 passed max_iter :: rest)
  /\ passed = map bounds (filter is_active (links c))
  /\ length passed = length (filter is_active (links c))
  /\ (forall l, In l (links c) -> is_active l = true -> In (bounds l) passed)
  /\ combine x0 passed =
       map (fun q => (snd q, bounds (fst q)))
           (filter (fun q => is_active (fst q)) (combine (links c) start))
  /\ (length start = length (links c) -> length x0 = length passed).
Proof.
  intros Hmode. cbv zeta.
  destruct (recognized_mode_arg _ Hmode) as [m ->].
  change (active_from_full c (map bounds (links c))) with (real_bounds c).
  change (mkWorld (heap w)
            (events w ++ [EvMinimize (active_from_full c (nth s (heap w) []))
                            (real_bounds c) max_iter]))
    with (at_call c max_iter s w).
  split.
  { intros e He. rewrite solve_run.
    destruct (run_strategy _ _ _) as [[e'|res] w1]; simpl in *; [|discriminate].
    now injection He as ->. }
  split.
  { intros res Hres. rewrite solve_run.
    destruct (run_strategy _ _ _) as [[e'|res'] w1]; simpl in *; [discriminate|].
    injection Hres as ->. eexists. split; [reflexivity|].
    split; [apply nth_fresh | reflexivity]. }
  split.
  { destruct (solve_extends minimize c target_frame regularization_parameter
                max_iter m s w) as [_ [ex Hex]].
    exists ex. rewrite Hex. simpl. now rewrite <- app_assoc. }
  split; [apply real_bounds_filter|].
  split; [now rewrite real_bounds_filter, length_map|].
  split.
  { intros l Hl Ha. rewrite real_bounds_filter. apply in_map.
    apply filter_In. now split. }
  split; [apply combine_reduced|].
  intros Hlen. apply compress_length. now rewrite length_map.
Qed.

Lemma bounds_passed_to_the_optimizer_witness :
  let w := world_of [0; 0; 0] in
  let passed := [(Some (-1), Some 1); free] in
  let run := run_strategy (eval_total arm (translate 1 0 0) (Some "all"%string) 0%nat None)
               (one_look [0; 0] passed (Some 5%Z))
               (mkWorld (heap w) (events w ++ [EvMinimize [0; 0] passed (Some 5%Z)])) in
  let solve := inverse_kinematic_optimization one_look arm (translate 1 0 0)
                 (Some 0%nat) None (Some 5%Z) (Some "all"%string) w in
  recognized (Some "all"%string) = true
  /\ fst run = inr (mkResult [0; 0] 1)
  /\ (exists r, fst solve = inr r
                /\ nth r (heap (snd solve)) [] =
                   merge_values arm [0; 0] (nth 0 (heap (snd run)) [])
                /\ events (snd solve) = events (snd run) ++ [EvLogInfo 1])
  /\ active_from_full arm (map bounds (links arm)) = passed.
Proof.
  cbv zeta.
  assert (H : recognized (Some "all"%string) = true) by reflexivity.
  assert (Hrun : fst (run_strategy
                        (eval_total arm (translate 1 0 0) (Some "all"%string) 0%nat None)
                        (one_look [0; 0] [(Some (-1), Some 1); free] (Some 5%Z))
                        (mkWorld (heap (world_of [0; 0; 0]))
                           (events (world_of [0; 0; 0])
                            ++ [EvMinimize [0; 0] [(Some (-1), Some 1); free] (Some 5%Z)])))
                 = inr (mkResult [0; 0] 1)) by reflexivity.
  destruct (bounds_passed_to_the_optimizer
              one_look arm (translate 1 0 0) 0%nat None (Some 5%Z)
              (Some "all"%string) (world_of [0; 0; 0]) H)
    as [_ [Hok [_ [Hb _]]]].
  split; [exact H|]. split; [exact Hrun|].
  split; [exact (Hok (mkResult [0; 0] 1) Hrun) | exact Hb].
Defined.

(** C9.  Matching of the orientation mode is exact: the accepted values are
    None and the strings "X", "Y", "Z" and "all"; any other string, such as
    "All", "ALL" or "x", raises the unknown-mode [ValueError] whatever the
    other arguments are, and an accepted value never does. *)
Theorem orientation_mode_matching_is_exact
    (minimize : Minimizer) (c : Chain) (target_frame : Mat4)
    (starting_nodes_angles : option ref) (regularization_parameter : option R)
    (max_iter : option Z) (w : World) :
  let solve := inverse_kinematic_optimization minimize c target_frame
                 starting_nodes_angles regularization_parameter max_iter in
  (forall mode, recognized mode = true <->
                mode = None \/ mode = Some "X"%string \/ mode = Some "Y"%string
                \/ mode = Some "Z"%string \/ mode = Some "all"%string)
  /\ (forall mode, recognized (Some mode) = false ->
                   solve (Some mode) w = (inl (unknown_mode mode), w))
  /\ (forall mode other, recognized mode = true ->
                         fst (solve mode w) <> inl (unknown_mode other))
  /\ recognized (Some "All"%string) = false
  /\ recognized (Some "ALL"%string) = false
  /\ recognized (Some "x"%string) = false.
Proof.
  cbv zeta. split; [|split; [|split]].
  - intros mode. split.
    + intros H. destruct (recognized_mode_arg _ H) as [[] ->]; simpl; tauto.
    + intros [-> | [-> | [-> | [-> | ->]]]]; reflexivity.
  - intros mode H. now apply solve_unknown_mode.
  - intros mode other H. destruct (recognized_mode_arg _ H) as [m ->].
    destruct starting_nodes_angles as [s|].
    + intros E.
      destruct (solve_errors_after_setup minimize c target_frame
                  regularization_parameter max_iter m s w _ E) as [Hb | [msg Hb]].
      * symmetry in Hb. now apply broadcast_is_not_unknown in Hb.
      * discriminate.
    + rewrite solve_missing_start. simpl. intros E. injection E as E. discriminate.
  - repeat split; reflexivity.
Qed.

Lemma orientation_mode_matching_is_exact_witness :
  recognized (Some "All"%string) = false
  /\ inverse_kinematic_optimization one_look arm (translate 1 0 0) (Some 0%nat)
       None None (Some "All"%string) (world_of [0; 0; 0])
     = (inl (unknown_mode "All"), world_of [0; 0; 0])
  /\ recognized (Some "all"%string) = true
  /\ fst (inverse_kinematic_optimization one_look arm (translate 1 0 0) (Some 0%nat)
            None None (Some "all"%string) (world_of [0; 0; 0]))
     <> inl (unknown_mode "all").
Proof.
  assert (H1 : recognized (Some "All"%string) = false) by reflexivity.
  assert (H2 : recognized (Some "all"%string) = true) by reflexivity.
  destruct (orientation_mode_matching_is_exact
              one_look arm (translate 1 0 0) (Some 0%nat) None None
              (world_of [0; 0; 0]))
    as [_ [Hbad [Hgood _]]].
  split; [exact H1|]. split; [exact (Hbad "All"%string H1)|].
  split; [exact H2 | exact (Hgood (Some "all"%string) "all"%string H2)].
Defined.

(** C10.  The orientation mode is checked before the starting
    configuration: a call without a starting configuration and with an
    unrecognized mode raises the unknown-mode error, and the
    missing-start error is raised only when the mode is recognized (and the
    starting configuration is absent). *)
Theorem unknown_mode_is_checked_before_the_start
    (minimize : Minimizer) (c : Chain) (target_frame : Mat4)
    (regularization_parameter : option R) (max_iter : option Z) (w : World) :
  let solve starting := inverse_kinematic_optimization minimize c target_frame
                          starting regularization_parameter max_iter in
  (forall mode, recognized (Some mode) = false ->
                solve None (Some mode) w = (inl (unknown_mode mode), w))
  /\ (forall mode, unknown_mode mode <> missing_start)
  /\ (forall starting mode,
        fst (solve starting mode w) = inl missing_start ->
        recognized mode = true /\ starting = None).
Proof.
  cbv zeta. split; [|split].
  - intros mode H. now apply solve_unknown_mode.
  - apply unknown_is_not_missing.
  - intros starting mode E.
    destruct (recognized mode) eqn:Hmode.
    + split; [reflexivity|].
      destruct starting as [s|]; [|reflexivity].
      destruct (recognized_mode_arg _ Hmode) as [m ->].
      destruct (solve_errors_after_setup minimize c target_frame
                  regularization_parameter max_iter m s w _ E) as [Hb | [msg Hb]].
      * symmetry in Hb. now apply broadcast_is_not_missing in Hb.
      * discriminate.
    + destruct (unrecognized_is_a_string _ Hmode) as [s ->].
      rewrite solve_unknown_mode in E by exact Hmode. simpl in E.
      injection E as E. discriminate.
Qed.

Lemma unknown_mode_is_checked_before_the_start_witness :
  recognized (Some "W"%string) = false
  /\ inverse_kinematic_optimization one_look arm (translate 1 0 0) None
       None None (Some "W"%string) (world_of [0; 0; 0])
     = (inl (unknown_mode "W"), world_of [0; 0; 0])
  /\ fst (inverse_kinematic_optimization one_look arm (translate 1 0 0) None
            None None None (world_of [0; 0; 0])) = inl missing_start
  /\ recognized None = true.
Proof.
  assert (H1 : recognized (Some "W"%string) = false) by reflexivity.
  assert (H2 : fst (inverse_kinematic_optimization one_look arm (translate 1 0 0) None
                      None None None (world_of [0; 0; 0])) = inl missing_start)
    by reflexivity.
  destruct (unknown_mode_is_checked_before_the_start
              one_look arm (translate 1 0 0) None None (world_of [0; 0; 0]))
    as [Hfirst [_ Honly]].
  split; [exact H1|]. split; [exact (Hfirst "W"%string H1)|].
  split; [exact H2 | exact (proj1 (Honly None None H2))].
Defined.

(** ** Further properties of the objective *)

Section ObjectiveValue.

Lemma sum_sq3_zero (a b c : R) : a² + b² + c² = 0 -> a = 0 /\ b = 0 /\ c = 0.
Proof.
  intros H.
  pose proof (Rle_0_sqr a) as Ha. pose proof (Rle_0_sqr b) as Hb.
  pose proof (Rle_0_sqr c) as Hc.
  repeat split; apply Rsqr_0_uniq; lra.
Qed.

Lemma euclid3_nonneg (u v : Vec3) : 0 <= euclid3 u v.
Proof. destruct u as [[u0 u1] u2], v as [[v0 v1] v2]. apply sqrt_pos. Qed.

Lemma euclid3_zero (u v : Vec3) : euclid3 u v = 0 <-> u = v.
Proof.
  destruct u as [[u0 u1] u2], v as [[v0 v1] v2]. unfold euclid3. split.
  - intros H. apply sqrt_eq_0 in H.
    + apply sum_sq3_zero in H. destruct H as [H0 [H1 H2]].
      repeat f_equal; lra.
    + pose proof (Rle_0_sqr (u0 - v0)). pose proof (Rle_0_sqr (u1 - v1)).
      pose proof (Rle_0_sqr (u2 - v2)). lra.
  - intros H. injection H as -> -> ->.
    replace ((v0 - v0)² + (v1 - v1)² + (v2 - v2)²) with 0 by (unfold Rsqr; ring).
    apply sqrt_0.
Qed.

Lemma frobenius3_nonneg (p t : Mat4) : 0 <= frobenius3 p t.
Proof. apply sqrt_pos. Qed.

Lemma frobenius3_zero (p t : Mat4) :
  frobenius3 p t = 0 <->
  rotation_column 0 p = rotation_column 0 t
  /\ rotation_column 1 p = rotation_column 1 t
  /\ rotation_column 2 p = rotation_column 2 t.
Proof.
  unfold frobenius3, rotation_column; simpl.
  set (a0 := e0 (row0 p) - e0 (row0 t)). set (a1 := e1 (row0 p) - e1 (row0 t)).
  set (a2 := e2 (row0 p) - e2 (row0 t)). set (b0 := e0 (row1 p) - e0 (row1 t)).
  set (b1 := e1 (row1 p) - e1 (row1 t)). set (b2 := e2 (row1 p) - e2 (row1 t)).
  set (c0 := e0 (row2 p) - e0 (row2 t)). set (c1 := e1 (row2 p) - e1 (row2 t)).
  set (c2 := e2 (row2 p) - e2 (row2 t)).
  pose proof (Rle_0_sqr a0). pose proof (Rle_0_sqr a1). pose proof (Rle_0_sqr a2).
  pose proof (Rle_0_sqr b0). pose proof (Rle_0_sqr b1). pose proof (Rle_0_sqr b2).
  pose proof (Rle_0_sqr c0). pose proof (Rle_0_sqr c1). pose proof (Rle_0_sqr c2).
  split.
  - intros Hs. apply sqrt_eq_0 in Hs; [|lra].
    assert (Hz : a0 = 0 /\ a1 = 0 /\ a2 = 0 /\ b0 = 0 /\ b1 = 0 /\ b2 = 0
                 /\ c0 = 0 /\ c1 = 0 /\ c2 = 0)
      by (repeat split; apply Rsqr_0_uniq; lra).
    destruct Hz as [? [? [? [? [? [? [? [? ?]]]]]]]].
    subst a0 a1 a2 b0 b1 b2 c0 c1 c2.
    repeat split; (apply f_equal2; [apply f_equal2|]; lra).
  - intros [Hc0 [Hc1 Hc2]].
    injection Hc0 as E00 E10 E20. injection Hc1 as E01 E11 E21.
    injection Hc2 as E02 E12 E22.
    assert (Hz : a0 = 0 /\ a1 = 0 /\ a2 = 0 /\ b0 = 0 /\ b1 = 0 /\ b2 = 0
                 /\ c0 = 0 /\ c1 = 0 /\ c2 = 0)
      by (subst a0 a1 a2 b0 b1 b2 c0 c1 c2; repeat split; lra).
    destruct Hz as [-> [-> [-> [-> [-> [-> [-> [-> ->]]]]]]]].
    replace (0² + 0² + 0² + 0² + 0² + 0² + 0² + 0² + 0²) with 0
      by (unfold Rsqr; ring).
    apply sqrt_0.
Qed.

Lemma position_error_nonneg (p t : Mat4) : 0 <= positionError p t.
Proof. apply euclid3_nonneg. Qed.

Lemma orientation_error_nonneg (m : OrientationMode) (p t : Mat4) :
  0 <= orientationError m p t.
Proof.
  destruct m; cbn [orientationError]; try apply euclid3_nonneg;
    [lra | apply frobenius3_nonneg].
Qed.

Lemma code_objective_nonneg (m : OrientationMode) (p t : Mat4) :
  0 <= code_objective m p t.
Proof.
  pose proof (position_error_nonneg p t) as Hp.
  pose proof (orientation_error_nonneg m p t) as Ho.
  destruct m; unfold code_objective, ORIENTATION_COEFF; lra.
Qed.

Lemma code_objective_zero (m : OrientationMode) (p t : Mat4) :
  code_objective m p t = 0 <-> slices_agree m p t.
Proof.
  pose proof (position_error_nonneg p t) as Hp.
  pose proof (orientation_error_nonneg m p t) as Ho.
  unfold slices_agree, positionError in *.
  rewrite <- (euclid3_zero (translation p) (translation t)).
  destruct m; unfold code_objective, ORIENTATION_COEFF, positionError;
    cbn [orientationError] in *.
  - tauto.
  - rewrite <- euclid3_zero. split; [intros H; split; lra | intros [-> ->]; lra].
  - rewrite <- euclid3_zero. split; [intros H; split; lra | intros [-> ->]; lra].
  - rewrite <- euclid3_zero. split; [intros H; split; lra | intros [-> ->]; lra].
  - rewrite <- frobenius3_zero. split; [intros H; split; lra | intros [-> ->]; lra].
Qed.

End ObjectiveValue.

Section ObjectiveExtras.

Variable c : Chain.
Variable starting : ref.

(** X1.  The objective is never negative, and it is zero whenever the pose
    computed for the merged joint vector agrees with the target on the
    slices that the mode compares: the translation, and the selected
    rotation column or block. *)
Theorem objective_is_nonnegative_and_zero_at_a_match
    (target_frame : Mat4) (m : OrientationMode) (x : list R) (w : World) :
  exists v,
    fst (eval_objective c target_frame (mode_arg m) starting x w) = inr v
    /\ 0 <= v
    /\ (slices_agree m (fk c (merged c starting x w)) target_frame -> v = 0).
Proof.
  rewrite eval_objective_run. eexists. split; [reflexivity|]. split.
  - apply code_objective_nonneg.
  - apply code_objective_zero.
Qed.

Lemma code_objective_slices (m : OrientationMode) (p t t' : Mat4) :
  slices_agree m t t' -> code_objective m p t = code_objective m p t'.
Proof.
  intros [Ht Ho].
  assert (Hp : positionError p t = positionError p t')
    by (unfold positionError; now rewrite Ht).
  destruct m; unfold code_objective; cbn [orientationError]; rewrite Hp;
    try reflexivity; try (now rewrite Ho).
  destruct Ho as [H0 [H1 H2]]. unfold rotation_column in *; simpl in *.
  injection H0 as E00 E10 E20. injection H1 as E01 E11 E21.
  injection H2 as E02 E12 E22.
  unfold frobenius3.
  now rewrite E00, E10, E20, E01, E11, E21, E02, E12, E22.
Qed.

(** X2.  The objective depends on the target frame only through the slices
    that the mode compares: two target frames with the same translation
    and the same selected rotation column (or block) give the same
    evaluation; with mode None the rotation of the target is ignored. *)
Theorem objective_reads_only_the_compared_slices
    (target_frame target_frame' : Mat4) (m : OrientationMode) (x : list R) (w : World) :
  slices_agree m target_frame target_frame' ->
  eval_objective c target_frame (mode_arg m) starting x w =
  eval_objective c target_frame' (mode_arg m) starting x w.
Proof.
  intros H. rewrite !eval_objective_run.
  now rewrite (code_objective_slices m _ _ _ H).
Qed.


(** X4.  During a call the objective is a function of [x] alone: in any
    later world, in which arrays and events have been added but the
    starting configuration is still in place, an evaluation at [x] gives
    the value it gave before. *)
Theorem objective_value_is_unaffected_by_earlier_evaluations
    (target_frame : Mat4) (m : OrientationMode) (reg : option R)
    (x : list R) (w w' : World) :
  (starting < length (heap w))%nat ->
  extends w w' ->
  fst (eval_total c target_frame (mode_arg m) starting reg x w') =
  fst (eval_total c target_frame (mode_arg m) starting reg x w).
Proof.
  intros Hs Hw. rewrite !eval_total_run, !eval_objective_run.
  unfold merged. rewrite (extends_heap _ _ _ Hw Hs).
  destruct reg as [lam|]; [|reflexivity].
  now destruct (np_sub x _).
Qed.

End ObjectiveExtras.

Lemma objective_reads_only_the_compared_slices_witness :
  slices_agree ModeNone (translate 1 0 0) (quarter_turn 1 0 0)
  /\ eval_objective slider (translate 1 0 0) None 0%nat [0] (world_of [0]) =
     eval_objective slider (quarter_turn 1 0 0) None 0%nat [0] (world_of [0]).
Proof.
  assert (H : slices_agree ModeNone (translate 1 0 0) (quarter_turn 1 0 0))
    by (split; [reflexivity | exact I]).
  split; [exact H|].
  exact (objective_reads_only_the_compared_slices slider 0%nat
           (translate 1 0 0) (quarter_turn 1 0 0) ModeNone [0] (world_of [0]) H).
Defined.

Lemma objective_value_is_unaffected_by_earlier_evaluations_witness :
  let w := world_of [0; 0; 0] in
  let w' := snd (eval_total arm (translate 1 0 0) (Some "X"%string) 0%nat None
                   [1; 1] w) in
  (0 < length (heap w))%nat
  /\ extends w w'
  /\ fst (eval_total arm (translate 1 0 0) None 0%nat None [0; 0] w') =
     fst (eval_total arm (translate 1 0 0) None 0%nat None [0; 0] w).
Proof.
  cbv zeta.
  assert (H1 : Nat.lt 0 (length (heap (world_of [0; 0; 0])))) by (simpl; lia).
  assert (H2 : extends (world_of [0; 0; 0])
                 (snd (eval_total arm (translate 1 0 0) (Some "X"%string) 0%nat None
                         [1; 1] (world_of [0; 0; 0])))).
  { split; eexists; simpl; reflexivity. }
  split; [exact H1|]. split; [exact H2|].
  exact (objective_value_is_unaffected_by_earlier_evaluations arm 0%nat
           (translate 1 0 0) ModeNone None [0; 0] _ _ H1 H2).
Defined.

(** ** The log of a run *)

Section RunLog.

Variable c : Chain.
Variable target_frame : Mat4.
Variable starting : ref.
Variable m : OrientationMode.
Variable reg : option R.

Lemma count_app (p : Event -> bool) (l1 l2 : list Event) :
  length (filter p (l1 ++ l2)) = (length (filter p l1) + length (filter p l2))%nat.
Proof. now rewrite filter_app, length_app. Qed.

Lemma count_repeat (p : Event -> bool) (e : Event) (n : nat) :
  length (filter p (repeat e n)) = if p e then n else 0%nat.
Proof.
  induction n as [|n IH]; simpl; [now destruct (p e)|].
  destruct (p e); simpl; now rewrite ?IH.
Qed.

(** One evaluation of the final objective either raises the shape error of
    the regularization and changes nothing, or returns a value, adds the
    merged vector to the heap and logs the calls of the forward
    kinematics. *)
Lemma eval_total_outcome (x : list R) (w : World) :
  (eval_total c target_frame (mode_arg m) starting reg x w = (inl broadcast_error, w)
   /\ reg <> None)
  \/ exists v,
       eval_total c target_frame (mode_arg m) starting reg x w =
       (inr v,
        mkWorld (heap w ++ [merged c starting x w])
                (events w ++ repeat (EvForwardKinematics (merged c starting x w))
                                    (fk_calls_per_evaluation m))).
Proof.
  rewrite eval_total_run. destruct reg as [lam|].
  - destruct (np_sub x _) as [e|diff] eqn:E.
    + left. split; [|discriminate]. now rewrite (np_sub_error _ _ _ E).
    + right. now eexists.
  - right. rewrite eval_objective_run. now eexists.
Qed.

(** What a run of the optimizer adds to the log: no optimizer call and no
    diagnostic; the forward-kinematics calls of each evaluation that
    returned. *)
Lemma run_strategy_log (s : Strategy) (w : World) :
  let run := run_strategy (eval_total c target_frame (mode_arg m) starting reg) s w in
  let n := fk_calls_per_evaluation m in
  exists ex,
    events (snd run) = events w ++ ex
    /\ minimize_calls ex = 0%nat
    /\ log_calls ex = 0%nat
    /\ (fk_calls ex <= n * objective_calls ex)%nat
    /\ (forall res, fst run = inr res -> fk_calls ex = (n * objective_calls ex)%nat)
    /\ (forall e, fst run = inl e -> reg = None -> exists msg, e = OptimizationFailure msg).
Proof.
  cbv zeta. revert w. induction s as [x k IH|res|msg]; intros w.
  - set (w0 := mkWorld (heap w) (events w ++ [EvObjective x])).
    assert (Hq : run_strategy (eval_total c target_frame (mode_arg m) starting reg)
                   (Query x k) w =
                 match eval_total c target_frame (mode_arg m) starting reg x w0 with
                 | (inr v, w1) =>
                     run_strategy (eval_total c target_frame (mode_arg m) starting reg)
                       (k v) w1
                 | (inl e, w1) => (inl e, w1)
                 end) by reflexivity.
    rewrite Hq. clear Hq.
    destruct (eval_total_outcome x w0) as [[E Hreg] | [v E]]; rewrite E.
    + exists [EvObjective x]. simpl.
      refine (conj eq_refl (conj eq_refl (conj eq_refl (conj _ (conj _ _))))).
      * unfold fk_calls; simpl. lia.
      * intros res H; simpl in H; discriminate.
      * intros e _ H; contradiction.
    + set (w1 := mkWorld _ _).
      destruct (IH v w1) as [ex [Hev [Hmin [Hlog [Hle [Hok Herr]]]]]].
      exists ([EvObjective x]
              ++ repeat (EvForwardKinematics (merged c starting x w0))
                        (fk_calls_per_evaluation m)
              ++ ex).
      split.
      { rewrite Hev. subst w1 w0; simpl. now rewrite <- !app_assoc. }
      unfold minimize_calls, log_calls, fk_calls, objective_calls in *.
      rewrite !count_app, !count_repeat; simpl.
      refine (conj _ (conj _ (conj _ (conj _ _)))); try lia.
      * intros res Hres. specialize (Hok res Hres). lia.
      * exact Herr.
  - exists []. simpl. rewrite app_nil_r.
    refine (conj eq_refl (conj eq_refl (conj eq_refl (conj _ (conj _ _))))).
    + unfold fk_calls; simpl. lia.
    + intros; unfold fk_calls, objective_calls; simpl. lia.
    + intros e H; simpl in H; discriminate.
  - exists []. simpl. rewrite app_nil_r.
    refine (conj eq_refl (conj eq_refl (conj eq_refl (conj _ (conj _ _))))).
    + unfold fk_calls; simpl. lia.
    + intros res H; simpl in H; discriminate.
    + intros e H _; simpl in H; injection H as <-; now exists msg.
Qed.

End RunLog.

(** ** Further properties of the solver *)

(** X5.  On a chain whose active links are exactly those from
    [first_active_joint] on, with a starting configuration that has one
    entry per link and an [x] that has one entry per active link, the
    regularized evaluation never raises, calls the forward kinematics as
    the base objective does, and returns the base objective plus the weight
    times the Euclidean distance of [x] to the reduced starting
    configuration. *)
Theorem regularization_matches_the_reduction_on_suffix_chains
    (c : Chain) (target_frame : Mat4) (m : OrientationMode) (s : ref)
    (lam : R) (x : list R) (w : World) :
  active_suffix c ->
  length (nth s (heap w) []) = length (links c) ->
  length x = length (filter is_active (links c)) ->
  exists base,
    fst (eval_objective c target_frame (mode_arg m) s x w) = inr base
    /\ eval_total c target_frame (mode_arg m) s (Some lam) x w =
       (inr (base + lam * distance x (active_from_full c (nth s (heap w) []))),
        snd (eval_objective c target_frame (mode_arg m) s x w)).
Proof.
  intros Hc Hs Hx.
  assert (Hlen : length x = length (active_from_full c (nth s (heap w) []))).
  { rewrite Hx. unfold active_from_full.
    rewrite (compress_length _ (nth s (heap w) []) (map bounds (links c)))
      by now rewrite length_map.
    unfold active_links_mask. now rewrite compress_map_filter, length_map. }
  rewrite eval_total_run, eval_objective_run.
  rewrite (suffix_slice_is_reduce c _ Hc Hs).
  destruct (norm_is_distance x _ Hlen) as [diff [Hd Hn]].
  rewrite Hd, Hn. eexists. split; reflexivity.
Qed.

Lemma regularization_matches_the_reduction_on_suffix_chains_witness :
  let w := world_of [0; 0; 0] in
  active_suffix rooted
  /\ length (nth 0 (heap w) []) = length (links rooted)
  /\ length [1; 1] = length (filter is_active (links rooted))
  /\ exists base,
       fst (eval_objective rooted (translate 1 1 0) None 0%nat [1; 1] w) = inr base
       /\ fst (eval_total rooted (translate 1 1 0) None 0%nat (Some 3) [1; 1] w) =
          inr (base + 3 * distance [1; 1] [0; 0]).
Proof.
  cbv zeta.
  assert (H1 : active_suffix rooted) by reflexivity.
  assert (H2 : length (nth 0 (heap (world_of [0; 0; 0])) []) = length (links rooted))
    by reflexivity.
  assert (H3 : length [1; 1] = length (filter is_active (links rooted)))
    by reflexivity.
  destruct (regularization_matches_the_reduction_on_suffix_chains
              rooted (translate 1 1 0) ModeNone 0%nat 3 [1; 1]
              (world_of [0; 0; 0]) H1 H2 H3) as [base [Hb Ht]].
  split; [exact H1|]. split; [exact H2|]. split; [exact H3|].
  exists base. split; [exact Hb|].
  exact (f_equal fst Ht).
Defined.

Section SolverExtras.

Variable minimize : Minimizer.
Variable c : Chain.
Variable target_frame : Mat4.
Variable max_iter : option Z.

(** X6.  A call that passes the argument checks invokes the optimizer exactly
    once, before any evaluation of the objective; when the optimizer returns
    a result the diagnostic is logged exactly once, as the last event, with
    the optimizer's iteration count; when the call fails no diagnostic is
    logged. *)
Theorem optimizer_is_called_once_and_success_is_logged_once
    (regularization_parameter : option R) (m : OrientationMode) (s : ref) (w : World) :
  let run := inverse_kinematic_optimization minimize c target_frame (Some s)
               regularization_parameter max_iter (mode_arg m) w in
  let total := eval_total c target_frame (mode_arg m) s regularization_parameter in
  let x0 := active_from_full c (nth s (heap w) []) in
  minimize_calls (events (snd run)) = (minimize_calls (events w) + 1)%nat
  /\ (exists rest, events (snd run) =
                   events w ++ EvMinimize x0 (real_bounds c) max_iter :: rest)
  /\ (forall r, fst run = inr r ->
        log_calls (events (snd run)) = (log_calls (events w) + 1)%nat
        /\ exists res w1,
             run_strategy total (minimize x0 (real_bounds c) max_iter)
               (at_call c max_iter s w) = (inr res, w1)
             /\ events (snd run) = events w1 ++ [EvLogInfo (res_nit res)])
  /\ (forall e, fst run = inl e ->
        log_calls (events (snd run)) = log_calls (events w)).
Proof.
  cbv zeta. rewrite solve_run.
  destruct (run_strategy_log c target_frame s m regularization_parameter
              (minimize (active_from_full c (nth s (heap w) [])) (real_bounds c) max_iter)
              (at_call c max_iter s w))
    as [ex [Hev [Hmin [Hlog _]]]].
  destruct (run_strategy _ _ _) as [[e|res] w1]; simpl in *;
    unfold minimize_calls, log_calls in *.
  - rewrite Hev, !count_app; simpl.
    refine (conj _ (conj _ (conj _ _))).
    + lia.
    + exists ex. now rewrite <- app_assoc.
    + intros r H; discriminate.
    + intros e' _. lia.
  - rewrite Hev, !count_app; simpl.
    refine (conj _ (conj _ (conj _ _))).
    + lia.
    + exists (ex ++ [EvLogInfo (res_nit res)]). now rewrite <- !app_assoc.
    + intros r _. split; [lia|]. exists res, w1. split; [reflexivity|].
      now rewrite Hev.
    + intros e' H; discriminate.
Qed.

(** X7.  In a successful call the forward kinematics is called once per
    evaluation of the objective with mode None and twice per evaluation with
    the other modes, and nowhere else; in a call that fails after the
    argument checks it is called at most that often. *)
Theorem forward_kinematics_calls_of_a_solve
    (regularization_parameter : option R) (m : OrientationMode) (s : ref) (w : World) :
  let run := inverse_kinematic_optimization minimize c target_frame (Some s)
               regularization_parameter max_iter (mode_arg m) w in
  let n := match m with ModeNone => 1%nat | _ => 2%nat end in
  let evaluations := (objective_calls (events (snd run)) - objective_calls (events w))%nat in
  (objective_calls (events w) <= objective_calls (events (snd run)))%nat
  /\ (fk_calls (events (snd run)) <= fk_calls (events w) + n * evaluations)%nat
  /\ (forall r, fst run = inr r ->
        fk_calls (events (snd run)) = (fk_calls (events w) + n * evaluations)%nat).
Proof.
  cbv zeta. rewrite solve_run.
  destruct (run_strategy_log c target_frame s m regularization_parameter
              (minimize (active_from_full c (nth s (heap w) [])) (real_bounds c) max_iter)
              (at_call c max_iter s w))
    as [ex [Hev [_ [_ [Hle [Hok _]]]]]].
  assert (Hn : fk_calls_per_evaluation m = match m with ModeNone => 1%nat | _ => 2%nat end)
    by (destruct m; reflexivity).
  rewrite Hn in Hle, Hok. clear Hn.
  destruct (run_strategy _ _ _) as [[e|res] w1]; simpl in *;
    unfold fk_calls, objective_calls in *;
    rewrite Hev, !count_app; simpl.
  - refine (conj _ (conj _ _)); [lia | destruct m; lia | intros r H; discriminate].
  - specialize (Hok res eq_refl).
    refine (conj _ (conj _ _)); [lia | destruct m; lia | intros r _; destruct m; lia].
Qed.

(** X8.  When the optimizer returns the initial guess it was given, the call
    returns a new array equal to the starting configuration, and the
    starting configuration still holds what it held. *)
Theorem solve_returns_the_start_when_the_optimizer_returns_its_guess
    (regularization_parameter : option R) (m : OrientationMode) (s : ref)
    (w w1 : World) (res : OptimizeResult) :
  let start := nth s (heap w) [] in
  let x0 := active_from_full c start in
  (s < length (heap w))%nat ->
  run_strategy (eval_total c target_frame (mode_arg m) s regularization_parameter)
    (minimize x0 (real_bounds c) max_iter) (at_call c max_iter s w) = (inr res, w1) ->
  res_x res = x0 ->
  exists r w',
    inverse_kinematic_optimization minimize c target_frame (Some s)
      regularization_parameter max_iter (mode_arg m) w = (inr r, w')
    /\ nth r (heap w') [] = start
    /\ nth s (heap w') [] = start
    /\ r <> s.
Proof.
  cbv zeta. intros Hs Hrun Hx.
  pose proof (run_strategy_monotone
                (eval_total c target_frame (mode_arg m) s regularization_parameter)
                (minimize (active_from_full c (nth s (heap w) [])) (real_bounds c) max_iter)
                (fun x => total_monotone c target_frame s m regularization_parameter x)
                (at_call c max_iter s w)) as Hgrow.
  rewrite Hrun in Hgrow. simpl in Hgrow.
  assert (Hs1 : (s < length (heap w1))%nat).
  { pose proof (extends_length _ _ Hgrow) as Hl. simpl in Hl. lia. }
  assert (Hold : nth s (heap w1) [] = nth s (heap w) []).
  { now rewrite (extends_heap _ _ s Hgrow). }
  rewrite solve_run, Hrun. do 2 eexists. split; [reflexivity|].
  simpl heap. rewrite nth_fresh, nth_old by exact Hs1.
  rewrite Hold, Hx. unfold merge_values, active_from_full.
  rewrite place_compress. repeat split; lia.
Qed.

(** X9.  Without a regularization weight a call that passes the argument
    checks can fail only through the optimizer: the objective itself never
    raises.  With a weight the only other failure is the shape error of the
    regularization. *)
Theorem without_regularization_only_the_optimizer_can_fail
    (regularization_parameter : option R) (m : OrientationMode) (s : ref)
    (w : World) (e : Exn) :
  fst (inverse_kinematic_optimization minimize c target_frame (Some s)
         regularization_parameter max_iter (mode_arg m) w) = inl e ->
  (exists msg, e = OptimizationFailure msg)
  \/ (e = broadcast_error /\ regularization_parameter <> None).
Proof.
  rewrite solve_run.
  destruct (run_strategy_log c target_frame s m regularization_parameter
              (minimize (active_from_full c (nth s (heap w) [])) (real_bounds c) max_iter)
              (at_call c max_iter s w))
    as [ex [_ [_ [_ [_ [_ Herr]]]]]].
  pose proof (run_strategy_errors
                (eval_total c target_frame (mode_arg m) s regularization_parameter)
                (minimize (active_from_full c (nth s (heap w) [])) (real_bounds c) max_iter)
                (at_call c max_iter s w)) as Hshape.
  destruct (run_strategy _ _ _) as [[e'|res] w1]; simpl in *; [|discriminate].
  intros H; injection H as <-.
  destruct regularization_parameter as [lam|].
  - destruct (Hshape e' (fun x => total_shape_errors_only c target_frame s m (Some lam) x)
                eq_refl) as [Hb | Hm].
    + right. split; [exact Hb | discriminate].
    + now left.
  - left. now apply Herr.
Qed.

(** X10.  Whatever the arguments and whatever the outcome, a call leaves
    every array that existed before it as it was and only appends to the
    log. *)
Theorem solve_leaves_existing_arrays_alone
    (starting_nodes_angles : option ref) (regularization_parameter : option R)
    (orientation_mode : option string) (w : World) :
  let run := inverse_kinematic_optimization minimize c target_frame
               starting_nodes_angles regularization_parameter max_iter
               orientation_mode w in
  (forall r, (r < length (heap w))%nat ->
             nth r (heap (snd run)) [] = nth r (heap w) [])
  /\ (length (heap w) <= length (heap (snd run)))%nat
  /\ exists ex, events (snd run) = events w ++ ex.
Proof.
  cbv zeta.
  assert (H : extends w (snd (inverse_kinematic_optimization minimize c target_frame
                                 starting_nodes_angles regularization_parameter
                                 max_iter orientation_mode w))).
  { destruct (recognized orientation_mode) eqn:Hmode.
    - destruct (recognized_mode_arg _ Hmode) as [m ->].
      destruct starting_nodes_angles as [s|].
      + eapply extends_trans; [|apply solve_extends].
        apply extends_emit.
      + rewrite solve_missing_start. apply extends_refl.
    - destruct (unrecognized_is_a_string _ Hmode) as [mode ->].
      rewrite solve_unknown_mode by exact Hmode. apply extends_refl. }
  split; [intros r Hr; now apply extends_heap|].
  split; [now apply extends_length | apply H].
Qed.

End SolverExtras.

Lemma solve_returns_the_start_when_the_optimizer_returns_its_guess_witness :
  let w := world_of [0; 0; 0] in
  let run := run_strategy (eval_total arm (translate 1 0 0) None 0%nat None)
               (one_look (active_from_full arm [0; 0; 0]) (real_bounds arm) None)
               (at_call arm None 0%nat w) in
  (0 < length (heap w))%nat
  /\ run = (inr (mkResult [0; 0] 1), snd run)
  /\ exists r w',
       inverse_kinematic_optimization one_look arm (translate 1 0 0) (Some 0%nat)
         None None None w = (inr r, w')
       /\ nth r (heap w') [] = [0; 0; 0]
       /\ nth 0 (heap w') [] = [0; 0; 0]
       /\ r <> 0%nat.
Proof.
  cbv zeta.
  assert (H1 : Nat.lt 0 (length (heap (world_of [0; 0; 0])))) by (simpl; lia).
  assert (H2 : run_strategy (eval_total arm (translate 1 0 0) None 0%nat None)
                 (one_look (active_from_full arm [0; 0; 0]) (real_bounds arm) None)
                 (at_call arm None 0%nat (world_of [0; 0; 0]))
               = (inr (mkResult [0; 0] 1),
                  snd (run_strategy (eval_total arm (translate 1 0 0) None 0%nat None)
                         (one_look (active_from_full arm [0; 0; 0]) (real_bounds arm) None)
                         (at_call arm None 0%nat (world_of [0; 0; 0])))))
    by reflexivity.
  split; [exact H1|]. split; [exact H2|].
  exact (solve_returns_the_start_when_the_optimizer_returns_its_guess
           one_look arm (translate 1 0 0) None None ModeNone 0%nat
           (world_of [0; 0; 0]) _ (mkResult [0; 0] 1) H1 H2 eq_refl).
Defined.

Lemma without_regularization_only_the_optimizer_can_fail_witness :
  let run := inverse_kinematic_optimization always_fails arm (translate 1 0 0)
               (Some 0%nat) None None (Some "Z"%string) (world_of [0; 0; 0]) in
  fst run = inl (OptimizationFailure "ABNORMAL_TERMINATION_IN_LNSRCH")
  /\ ((exists msg, OptimizationFailure "ABNORMAL_TERMINATION_IN_LNSRCH"
                   = OptimizationFailure msg)
      \/ (OptimizationFailure "ABNORMAL_TERMINATION_IN_LNSRCH" = broadcast_error
          /\ @None R <> None)).
Proof.
  cbv zeta.
  assert (H : fst (inverse_kinematic_optimization always_fails arm (translate 1 0 0)
                     (Some 0%nat) None None (Some "Z"%string) (world_of [0; 0; 0]))
              = inl (OptimizationFailure "ABNORMAL_TERMINATION_IN_LNSRCH"))
    by reflexivity.
  split; [exact H|].
  exact (without_regularization_only_the_optimizer_can_fail
           always_fails arm (translate 1 0 0) None None ModeZ 0%nat
           (world_of [0; 0; 0]) _ H).
Defined.



Lemma objective_is_nonnegative_and_zero_at_a_match_witness :
  slices_agree ModeAll (fk slider (merged slider 0%nat [2] (world_of [0])))
    (translate 2 0 0)
  /\ fst (eval_objective slider (translate 2 0 0) (Some "all"%string) 0%nat [2]
            (world_of [0])) = inr 0.
Proof.
  assert (H : slices_agree ModeAll (fk slider (merged slider 0%nat [2] (world_of [0])))
                (translate 2 0 0))
    by (repeat split; reflexivity).
  split; [exact H|].
  destruct (objective_is_nonnegative_and_zero_at_a_match slider 0%nat
              (translate 2 0 0) ModeAll [2] (world_of [0])) as [v [Hv [_ Hz]]].
  cbn [mode_arg] in Hv. rewrite Hv. f_equal. exact (Hz H).
Defined.
